(** * tauri-plugin-fs: the JavaScript client ([dist-js/index.js]) and the
    mediator core it talks to.

    The client functions are embedded as programs over one effect, the IPC
    call [invoke(command, arguments)]: a program is a finite tree whose nodes
    are the calls it makes and whose leaves are the value it resolves to or
    the error it rejects with.  Asynchrony is sequentialised: an [await]
    is the point where the reply of the backend is received. *)

From Stdlib Require Import ZArith NArith Strings.Ascii Strings.String Strings.Byte.
From stdpp Require Import gmap strings list fin_maps pretty.

Set Default Proof Using "Type".
#[local] Set Warnings "-register-all,-clear-no-such-hyp".

(** ** JavaScript values and errors *)

(** JSON-like values: what option objects carry and what is passed through
    unchanged between caller and backend. Numbers are integers here. *)
Inductive JsValue : Type :=
| VUndefined
| VNull
| VBool (b : bool)
| VNum (z : Z)
| VStr (s : string)
| VArr (l : list JsValue)
| VObj (o : gmap string JsValue).

(** An options argument: [undefined] ([None]) or an object. *)
Abbreviation JsObject := (gmap string JsValue).
Abbreviation Options := (option (gmap string JsValue)).

(** Modelled from the spec: the error taxonomy (section 7) of the missing
    trusted side; these are the kinds with which the backend rejects a
    call. *)
Inductive ErrorKind : Type :=
| InvalidPath
| PathTraversal
| UnresolvableBaseDirectory
| ScopeViolation
| NotFound
| IOError (primitive : string)
| ShortWrite.

(** What a client function can reject with: an exception of the JavaScript
    side, or the rejection of an [invoke] promise. *)
Inductive JsError : Type :=
| TypeError (msg : string)
| RangeError (msg : string)
| InvokeError (e : ErrorKind).

(** [URL] objects: only [protocol] and [toString()] are used by the code. *)
Record URL : Type := mkURL { protocol : string; href : string }.

(** A path argument is [string | URL]. *)
Inductive PathArg : Type :=
| PathStr (s : string)
| PathURL (u : URL).

(** [path instanceof URL && path.protocol !== "file:"] *)
Definition is_non_file_url (path : PathArg) : bool :=
  match path with
  | PathURL u => bool_decide (protocol u ≠ "file:")
  | PathStr _ => false
  end.

(** [path instanceof URL ? path.toString() : path] *)
Definition path_to_string (path : PathArg) : string :=
  match path with
  | PathURL u => href u
  | PathStr s => s
  end.

(** [Uint8Array]: a fixed-length sequence of bytes. *)
Abbreviation Uint8Array := (list byte).

Definition byteLength (buffer : Uint8Array) : N := N.of_nat (length buffer).

(** [buffer.set(data)]: copies [data] to the start of [buffer]; a source
    longer than the target is a [RangeError] and leaves the target as it
    was. *)
Definition Uint8Array_set (buffer : Uint8Array) (data : list byte) : JsError + Uint8Array :=
  if decide (length data ≤ length buffer)
  then inr (data ++ drop (length data) buffer)
  else inl (RangeError "offset is out of bounds").

(** The reference to a callback function, and the [Channel] that carries
    backend messages to it. *)
Inductive Callback : Type := CallbackRef (id : N).

Record Channel : Type := mkChannel { onmessage : Callback }.

(** A [Date] holds a time value in milliseconds since the epoch, or NaN
    ([None]): an invalid date. [getTime] reads it. *)
Record Date : Type := mkDate { getTime : option N }.

(** The largest time value a [Date] holds: 8.64e15 ms. *)
Definition max_time : N := 8640000000000000.

(** [new Date(ms)] for a number [ms] of milliseconds: the time value is
    clipped, so a number beyond [max_time] gives an invalid date. *)
Definition new_Date (ms : N) : Date :=
  mkDate (if decide (ms ≤ max_time)%N then Some ms else None).

(** The backend's metadata reply, and what [parseFileInfo] makes of it. *)
Record UnparsedFileInfo : Type := mkUnparsedFileInfo {
  u_isFile : bool; u_isDirectory : bool; u_isSymlink : bool; u_size : N;
  u_mtime : option N; u_atime : option N; u_birthtime : option N;
  u_readonly : bool; u_fileAttributes : JsValue;
  u_dev : JsValue; u_ino : JsValue; u_mode : JsValue; u_nlink : JsValue;
  u_uid : JsValue; u_gid : JsValue; u_rdev : JsValue; u_blksize : JsValue;
  u_blocks : JsValue }.

Record FileInfo : Type := mkFileInfo {
  isFile : bool; isDirectory : bool; isSymlink : bool; size : N;
  mtime : option Date; atime : option Date; birthtime : option Date;
  readonly : bool; fileAttributes : JsValue;
  dev : JsValue; ino : JsValue; mode : JsValue; nlink : JsValue;
  uid : JsValue; gid : JsValue; rdev : JsValue; blksize : JsValue;
  blocks : JsValue }.

(** ** The IPC commands

    One constructor per [invoke("plugin:fs|...", {...})] in the source, with
    the fields of its argument object; the index is the type the reply
    resolves to. *)
Inductive Cmd : Type → Type :=
| fs_read (rid : N) (len : N) : Cmd (list byte * N)
| fs_seek (rid : N) (offset : Z) (whence : Z) : Cmd N
| fs_fstat (rid : N) : Cmd UnparsedFileInfo
| fs_ftruncate (rid : N) (len : option N) : Cmd unit
| fs_write (rid : N) (data : list byte) : Cmd N
| fs_create (path : string) (options : Options) : Cmd N
| fs_open (path : string) (options : Options) : Cmd N
| fs_copy_file (fromPath toPath : string) (options : Options) : Cmd unit
| fs_mkdir (path : string) (options : Options) : Cmd unit
| fs_read_dir (path : string) (options : Options) : Cmd JsValue
| fs_read_file (path : string) (options : Options) : Cmd (list byte)
| fs_read_text_file (path : string) (options : Options) : Cmd string
| fs_read_text_file_lines (path : string) (options : Options) : Cmd N
| fs_read_text_file_lines_next (rid : N) : Cmd (string * bool)
| fs_remove (path : string) (options : Options) : Cmd unit
| fs_rename (oldPath newPath : string) (options : Options) : Cmd unit
| fs_stat (path : string) (options : Options) : Cmd UnparsedFileInfo
| fs_lstat (path : string) (options : Options) : Cmd UnparsedFileInfo
| fs_truncate (path : string) (len : option N) (options : Options) : Cmd unit
| fs_write_file (path : string) (data : list byte) (options : Options) : Cmd unit
| fs_write_text_file (path : string) (data : string) (options : Options) : Cmd unit
| fs_exists (path : string) (options : Options) : Cmd bool
| fs_unwatch (rid : N) : Cmd unit
| fs_watch (paths : list string) (options : JsObject) (onEvent : Channel) : Cmd N.

(** The command string of each call. *)
Definition cmd_name {R} (c : Cmd R) : string :=
  match c with
  | fs_read _ _ => "plugin:fs|read"
  | fs_seek _ _ _ => "plugin:fs|seek"
  | fs_fstat _ => "plugin:fs|fstat"
  | fs_ftruncate _ _ => "plugin:fs|ftruncate"
  | fs_write _ _ => "plugin:fs|write"
  | fs_create _ _ => "plugin:fs|create"
  | fs_open _ _ => "plugin:fs|open"
  | fs_copy_file _ _ _ => "plugin:fs|copy_file"
  | fs_mkdir _ _ => "plugin:fs|mkdir"
  | fs_read_dir _ _ => "plugin:fs|read_dir"
  | fs_read_file _ _ => "plugin:fs|read_file"
  | fs_read_text_file _ _ => "plugin:fs|read_text_file"
  | fs_read_text_file_lines _ _ => "plugin:fs|read_text_file_lines"
  | fs_read_text_file_lines_next _ => "plugin:fs|read_text_file_lines_next"
  | fs_remove _ _ => "plugin:fs|remove"
  | fs_rename _ _ _ => "plugin:fs|rename"
  | fs_stat _ _ => "plugin:fs|stat"
  | fs_lstat _ _ => "plugin:fs|lstat"
  | fs_truncate _ _ _ => "plugin:fs|truncate"
  | fs_write_file _ _ _ => "plugin:fs|write_file"
  | fs_write_text_file _ _ _ => "plugin:fs|write_text_file"
  | fs_exists _ _ => "plugin:fs|exists"
  | fs_unwatch _ => "plugin:fs|unwatch"
  | fs_watch _ _ _ => "plugin:fs|watch"
  end.

(** ** Programs *)

(** How the promise of an [invoke] settles. *)
Inductive Reply (R : Type) : Type :=
| Resolved (r : R)
| Rejected (e : ErrorKind).
Arguments Resolved {R} r.
Arguments Rejected {R} e.

Inductive Prog (A : Type) : Type :=
| Ret (a : A)
| Throw (e : JsError)
| Invoke {R : Type} (c : Cmd R) (k : Reply R → Prog A).
Arguments Ret {A} a.
Arguments Throw {A} e.
Arguments Invoke {A R} c k.

Fixpoint bind {A B} (p : Prog A) (f : A → Prog B) : Prog B :=
  match p with
  | Ret a => f a
  | Throw e => Throw e
  | Invoke c k => Invoke c (λ r, bind (k r) f)
  end.

#[global] Instance Prog_ret : MRet Prog := @Ret.
#[global] Instance Prog_bind : MBind Prog := λ A B f p, bind p f.

(** [await invoke(c)]: the reply, or the rejection thrown at the [await]. *)
Definition invoke {R} (c : Cmd R) : Prog R :=
  Invoke c (λ r, match r with
                 | Resolved v => Ret v
                 | Rejected e => Throw (InvokeError e)
                 end).

(** [void p]: the call is started and its promise dropped, so neither its
    value nor its rejection reaches the caller. *)
Fixpoint void {A} (p : Prog A) : Prog unit :=
  match p with
  | Ret _ => Ret tt
  | Throw _ => Ret tt
  | Invoke c k => Invoke c (λ r, void (k r))
  end.

(** How a client call ends. *)
Inductive Settled (A : Type) : Type :=
| Fulfilled (a : A)
| Failed (e : JsError).
Arguments Fulfilled {A} a.
Arguments Failed {A} e.

(** A backend: a state and its answer to each command. *)
Definition Handler (S : Type) : Type := ∀ R, Cmd R → S → Reply R * S.

(** One call as it appears in the log of the calls made. *)
Definition Call : Type := sigT Cmd.
Definition call {R} (c : Cmd R) : Call := existT R c.

(** Running a program against a backend: how it settles, the backend state
    afterwards and the calls made, in order. *)
Fixpoint run {S A} (h : Handler S) (p : Prog A) (s : S) : Settled A * S * list Call :=
  match p with
  | Ret a => (Fulfilled a, s, [])
  | Throw e => (Failed e, s, [])
  | Invoke c k =>
      let '(r, s') := h _ c s in
      let '(o, s'', calls) := run h (k r) s' in
      (o, s'', call c :: calls)
  end.

Definition outcome {S A} (x : Settled A * S * list Call) : Settled A := x.1.1.
Definition final {S A} (x : Settled A * S * list Call) : S := x.1.2.
Definition calls {S A} (x : Settled A * S * list Call) : list Call := x.2.

(** ** The client: [dist-js/index.js] *)

Definition SeekMode : JsObject :=
  <["End" := VNum 2]> (<["2" := VStr "End"]>
  (<["Current" := VNum 1]> (<["1" := VStr "Current"]>
  (<["Start" := VNum 0]> (<["0" := VStr "Start"]> ∅))))).

Definition parseFileInfo (r : UnparsedFileInfo) : FileInfo :=
  {| isFile := u_isFile r;
     isDirectory := u_isDirectory r;
     isSymlink := u_isSymlink r;
     size := u_size r;
     mtime := match u_mtime r with Some t => Some (new_Date t) | None => None end;
     atime := match u_atime r with Some t => Some (new_Date t) | None => None end;
     birthtime := match u_birthtime r with Some t => Some (new_Date t) | None => None end;
     readonly := u_readonly r;
     fileAttributes := u_fileAttributes r;
     dev := u_dev r;
     ino := u_ino r;
     mode := u_mode r;
     nlink := u_nlink r;
     uid := u_uid r;
     gid := u_gid r;
     rdev := u_rdev r;
     blksize := u_blksize r;
     blocks := u_blocks r |}.

Definition must_be_file_url : JsError := TypeError "Must be a file URL.".

Module FileHandle.

(** [class FileHandle extends Resource]: the object holds its [rid]. *)
Record t : Type := new { rid : N }.

(** [read] resolves to a number or to [null] ([None]); the second
    component is the caller's buffer after the call. *)
Definition read (this : t) (buffer : Uint8Array) : Prog (option N * Uint8Array) :=
  if decide (byteLength buffer = 0%N) then Ret (Some 0%N, buffer)
  else
    '(data, nread) ← invoke (fs_read (rid this) (byteLength buffer));
    match Uint8Array_set buffer data with
    | inl e => Throw e
    | inr buffer' =>
        Ret (if decide (nread = 0%N) then None else Some nread, buffer')
    end.

Definition seek (this : t) (offset : Z) (whence : Z) : Prog N :=
  invoke (fs_seek (rid this) offset whence).

Definition stat (this : t) : Prog FileInfo :=
  res ← invoke (fs_fstat (rid this));
  Ret (parseFileInfo res).

Definition truncate (this : t) (len : option N) : Prog unit :=
  invoke (fs_ftruncate (rid this) len).

Definition write (this : t) (data : Uint8Array) : Prog N :=
  invoke (fs_write (rid this) data).

End FileHandle.

Definition create (path : PathArg) (options : Options) : Prog FileHandle.t :=
  if is_non_file_url path then Throw must_be_file_url
  else
    rid ← invoke (fs_create (path_to_string path) options);
    Ret (FileHandle.new rid).

Definition open (path : PathArg) (options : Options) : Prog FileHandle.t :=
  if is_non_file_url path then Throw must_be_file_url
  else
    rid ← invoke (fs_open (path_to_string path) options);
    Ret (FileHandle.new rid).

Definition copyFile (fromPath toPath : PathArg) (options : Options) : Prog unit :=
  if is_non_file_url fromPath || is_non_file_url toPath
  then Throw must_be_file_url
  else invoke (fs_copy_file (path_to_string fromPath) (path_to_string toPath) options).

Definition mkdir (path : PathArg) (options : Options) : Prog unit :=
  if is_non_file_url path then Throw must_be_file_url
  else invoke (fs_mkdir (path_to_string path) options).

Definition readDir (path : PathArg) (options : Options) : Prog JsValue :=
  if is_non_file_url path then Throw must_be_file_url
  else invoke (fs_read_dir (path_to_string path) options).

Definition readFile (path : PathArg) (options : Options) : Prog Uint8Array :=
  if is_non_file_url path then Throw must_be_file_url
  else
    arr ← invoke (fs_read_file (path_to_string path) options);
    Ret arr.

Definition readTextFile (path : PathArg) (options : Options) : Prog string :=
  if is_non_file_url path then Throw must_be_file_url
  else invoke (fs_read_text_file (path_to_string path) options).

(** The object [readTextFileLines] resolves to: its [path] and [rid]
    properties, and the [options] its [next] closes over. *)
Record LinesIterator : Type := mkLinesIterator {
  lines_path : string;
  lines_options : Options;
  lines_rid : option N }.

Definition set_rid (rid : option N) (this : LinesIterator) : LinesIterator :=
  {| lines_path := lines_path this;
     lines_options := lines_options this;
     lines_rid := rid |}.

Record IteratorResult : Type := mkIteratorResult { value : string; done : bool }.

Definition readTextFileLines (path : PathArg) (options : Options) : Prog LinesIterator :=
  if is_non_file_url path then Throw must_be_file_url
  else
    let pathStr := path_to_string path in
    Ret {| lines_path := pathStr; lines_options := options; lines_rid := None |}.

(** [next()] assigns to [this.rid], and the assignment outlives a rejection
    of the second call: the program resolves to how [next()] settled together
    with the iterator object as the call left it. *)
Definition next_line (this : LinesIterator) (rid : N)
    : Prog (Settled IteratorResult * LinesIterator) :=
  Invoke (fs_read_text_file_lines_next rid) (λ r,
    match r with
    | Rejected e => Ret (Failed (InvokeError e), this)
    | Resolved (line, done) =>
        Ret (Fulfilled {| value := if done then EmptyString else line; done := done |},
             if done then set_rid None this else this)
    end).

Definition next (this : LinesIterator) : Prog (Settled IteratorResult * LinesIterator) :=
  match lines_rid this with
  | None =>
      Invoke (fs_read_text_file_lines (lines_path this) (lines_options this)) (λ r,
        match r with
        | Rejected e => Ret (Failed (InvokeError e), this)
        | Resolved rid => next_line (set_rid (Some rid) this) rid
        end)
  | Some rid => next_line this rid
  end.

(** [[Symbol.asyncIterator]() { return this; }] *)
Definition asyncIterator (this : LinesIterator) : LinesIterator := this.

Definition remove (path : PathArg) (options : Options) : Prog unit :=
  if is_non_file_url path then Throw must_be_file_url
  else invoke (fs_remove (path_to_string path) options).

Definition rename (oldPath newPath : PathArg) (options : Options) : Prog unit :=
  if is_non_file_url oldPath || is_non_file_url newPath
  then Throw must_be_file_url
  else invoke (fs_rename (path_to_string oldPath) (path_to_string newPath) options).

Definition stat (path : PathArg) (options : Options) : Prog FileInfo :=
  res ← invoke (fs_stat (path_to_string path) options);
  Ret (parseFileInfo res).

Definition lstat (path : PathArg) (options : Options) : Prog FileInfo :=
  res ← invoke (fs_lstat (path_to_string path) options);
  Ret (parseFileInfo res).

Definition truncate (path : PathArg) (len : option N) (options : Options) : Prog unit :=
  if is_non_file_url path then Throw must_be_file_url
  else invoke (fs_truncate (path_to_string path) len options).

Definition writeFile (path : PathArg) (data : Uint8Array) (options : Options) : Prog unit :=
  if is_non_file_url path then Throw must_be_file_url
  else invoke (fs_write_file (path_to_string path) data options).

Definition writeTextFile (path : PathArg) (data : string) (options : Options) : Prog unit :=
  if is_non_file_url path then Throw must_be_file_url
  else invoke (fs_write_text_file (path_to_string path) data options).

Definition exists_ (path : PathArg) (options : Options) : Prog bool :=
  if is_non_file_url path then Throw must_be_file_url
  else invoke (fs_exists (path_to_string path) options).

Definition unwatch (rid : N) : Prog unit :=
  invoke (fs_unwatch rid).

(** The [paths] argument of the watch functions: one path or an array. *)
Inductive WatchPaths : Type :=
| OnePath (p : PathArg)
| PathArray (ps : list PathArg).

(** [Array.isArray(paths) ? paths : [paths]] *)
Definition to_watchPaths (paths : WatchPaths) : list PathArg :=
  match paths with
  | PathArray ps => ps
  | OnePath p => [p]
  end.

(** The [for (const path of watchPaths)] loop. *)
Fixpoint check_file_urls (watchPaths : list PathArg) : Prog unit :=
  match watchPaths with
  | [] => Ret tt
  | path :: rest =>
      if is_non_file_url path then Throw must_be_file_url
      else check_file_urls rest
  end.

(** [{ ...base, ...options }]: the properties of [options] win. *)
Definition spread (base : JsObject) (options : Options) : JsObject :=
  match options with
  | Some o => o ∪ base
  | None => base
  end.

Definition watch_opts (options : Options) : JsObject :=
  spread (<["delayMs" := VNum 2000]> (<["recursive" := VBool false]> ∅)) options.

Definition watchImmediate_opts (options : Options) : JsObject :=
  <["delayMs" := VNull]> (spread (<["recursive" := VBool false]> ∅) options).

(** The function the watch functions resolve to: [() => { void unwatch(rid); }]. *)
Definition UnwatchFn : Type := Prog unit.

Definition watch (paths : WatchPaths) (cb : Callback) (options : Options) : Prog UnwatchFn :=
  let opts := watch_opts options in
  let watchPaths := to_watchPaths paths in
  _ ← check_file_urls watchPaths;
  let onEvent := mkChannel cb in
  rid ← invoke (fs_watch (path_to_string <$> watchPaths) opts onEvent);
  Ret (void (unwatch rid)).

Definition watchImmediate (paths : WatchPaths) (cb : Callback) (options : Options)
    : Prog UnwatchFn :=
  let opts := watchImmediate_opts options in
  let watchPaths := to_watchPaths paths in
  _ ← check_file_urls watchPaths;
  let onEvent := mkChannel cb in
  rid ← invoke (fs_watch (path_to_string <$> watchPaths) opts onEvent);
  Ret (void (unwatch rid)).

(** ** The mediator core

    The trusted side that answers the [invoke] calls is not among the
    JavaScript sources; it is modelled from the specification
    (sections 3 to 7). *)

(** *** Paths

    Modelled from the spec: the path analysis of the missing Path Resolver
    (sections 3 and 4.1): segments at either separator, [..] segments,
    absolute paths, file URLs, normalization and descent from a root. *)

Definition is_separator (a : ascii) : bool :=
  bool_decide (a = "/"%char) || bool_decide (a = "\"%char).

Fixpoint segments_from (acc : string) (s : string) : list string :=
  match s with
  | EmptyString => [acc]
  | String a s' =>
      if is_separator a then acc :: segments_from EmptyString s'
      else segments_from (acc +:+ String a EmptyString) s'
  end.

(** The segments of a path, split at either separator. *)
Definition segments (p : string) : list string := segments_from EmptyString p.

Definition has_parent_segment (p : string) : bool :=
  bool_decide (".." ∈ segments p).

Definition is_absolute (p : string) : bool :=
  match p with
  | String a _ => is_separator a
  | EmptyString => false
  end.

Definition is_url (p : string) : bool :=
  match String.index 0 "://" p with Some _ => true | None => false end.

Definition is_file_url (p : string) : bool := String.prefix "file://" p.

(** The path a file URL names: what follows ["file://"]. *)
Definition url_path (p : string) : string :=
  String.substring 7 (String.length p - 7) p.

Definition proper_segment (seg : string) : bool :=
  bool_decide (seg ≠ EmptyString) && bool_decide (seg ≠ ".").

Definition normal_segments (p : string) : list string :=
  filter (λ seg, proper_segment seg = true) (segments p).

Fixpoint join_segments (segs : list string) : string :=
  match segs with
  | [] => EmptyString
  | seg :: rest => "/" +:+ seg +:+ join_segments rest
  end.

(** Collapses empty and [.] segments; the result is absolute. *)
Definition normalize (p : string) : string := join_segments (normal_segments p).

Fixpoint is_prefix_of (xs ys : list string) : bool :=
  match xs, ys with
  | [], _ => true
  | x :: xs', y :: ys' => bool_decide (x = y) && is_prefix_of xs' ys'
  | _ :: _, [] => false
  end.

Definition is_descendant (root resolved : string) : bool :=
  is_prefix_of (normal_segments root) (normal_segments resolved).

(** Modelled from the spec: the invariant of LogicalPath (section 3) that the
    missing Path Resolver enforces before resolution: no [..] segment, not
    absolute, and a URL only with the file scheme; [InvalidPath] is the kind
    for "must be a file URL", [PathTraversal] for "path escapes root". *)
Definition validate (logicalPath : string) : option ErrorKind :=
  if has_parent_segment logicalPath then Some PathTraversal
  else if is_absolute logicalPath then Some InvalidPath
  else if is_url logicalPath && negb (is_file_url logicalPath) then Some InvalidPath
  else None.

(** *** External collaborators *)

(** Modelled from the spec: the calls of the OS primitive provider
    (section 6), an external collaborator. Paths are resolved paths and
    [fd] are OS descriptors; [os_path_op c] is the primitive behind the path
    command [c]. *)
Inductive OsCall : Type → Type :=
| os_path_op {R : Type} (c : Cmd R) : OsCall R
| os_pread (fd pos len : N) : OsCall (list byte)
| os_pwrite (fd pos : N) (data : list byte) : OsCall N
| os_fsize (fd : N) : OsCall N
| os_fstat (fd : N) : OsCall UnparsedFileInfo
| os_ftruncate (fd : N) (len : N) : OsCall unit
| os_subscribe (root : string) (recursive : bool) : OsCall N
| os_unsubscribe (subscription : N) : OsCall unit.

Definition OsLog : Type := list (sigT OsCall).

(** One OS call as it appears in the log. *)
Definition performed {R} (c : OsCall R) : sigT OsCall := existT R c.

(** Modelled from the spec: ChangeEvent (section 3). *)
Inductive EventKind : Type :=
| Create | Modify | Remove | RenameFrom | RenameTo | Access | Other.

Record ChangeEvent : Type := mkChangeEvent {
  event_paths : list string;
  event_kind : EventKind;
  event_attribute_change : bool }.

(** *** State of the core *)

(** Modelled from the spec: an entry of the missing Handle Registry
    (section 2): an open file with its stream position, or a line reader
    with the lines still pending. *)
Inductive Resource : Type :=
| OpenFile (fd : N) (cursor : N)
| LineReader (pending : list string).

(** Modelled from the spec: WatchSession (section 3) and the states of its
    state machine (section 4.4). *)
Inductive SessionState : Type := Starting | Active | Stopped.

Record WatchSession : Type := mkWatchSession {
  session_roots : list string;
  session_recursive : bool;
  session_delay : N;
  session_subscriptions : list N;
  session_channel : Channel;
  session_buffer : list ChangeEvent;
  session_state : SessionState }.

(** Modelled from the spec: the state of the missing core: the state of the
    OS provider, the log of the OS calls made, the Handle Registry, the
    watch sessions, and the batches emitted on the session channels. *)
Record Core (Os : Type) : Type := mkCore {
  os : Os;
  os_log : OsLog;
  handles : gmap N Resource;
  next_handle : N;
  sessions : gmap N WatchSession;
  next_session : N;
  emitted : list (N * list ChangeEvent) }.
Arguments mkCore {Os}.
Arguments os {Os}.
Arguments os_log {Os}.
Arguments handles {Os}.
Arguments next_handle {Os}.
Arguments sessions {Os}.
Arguments next_session {Os}.
Arguments emitted {Os}.

Definition set_handles {Os} (hs : gmap N Resource) (s : Core Os) : Core Os :=
  mkCore (os s) (os_log s) hs (next_handle s) (sessions s) (next_session s) (emitted s).

Definition set_sessions {Os} (ws : gmap N WatchSession) (s : Core Os) : Core Os :=
  mkCore (os s) (os_log s) (handles s) (next_handle s) ws (next_session s) (emitted s).

Definition emit {Os} (sid : N) (batch : list ChangeEvent) (s : Core Os) : Core Os :=
  mkCore (os s) (os_log s) (handles s) (next_handle s) (sessions s) (next_session s)
         ((sid, batch) :: emitted s).

(** Modelled from the spec: [register] of the missing Handle Registry
    (section 4.3); identifiers are issued by a counter and never reused. *)
Definition register {Os} (r : Resource) (s : Core Os) : N * Core Os :=
  (next_handle s,
   mkCore (os s) (os_log s) (<[next_handle s := r]> (handles s)) (N.succ (next_handle s))
          (sessions s) (next_session s) (emitted s)).

(** Modelled from the spec: [release] of the missing Handle Registry. *)
Definition release {Os} (rid : N) (s : Core Os) : Reply unit * Core Os :=
  match handles s !! rid with
  | Some _ => (Resolved tt, set_handles (delete rid (handles s)) s)
  | None => (Rejected NotFound, s)
  end.

Definition base_of (key : string) (options : Options) : option Z :=
  match options with
  | Some o => match o !! key with Some (VNum token) => Some token | _ => None end
  | None => None
  end.

(** Modelled from the spec: the whence of [seek] (section 4.3), decoded
    from the number under which the client's [SeekMode] encodes it. *)
Inductive Whence : Type := SeekStart | SeekCurrent | SeekEnd.

Definition whence_of_code (code : Z) : option Whence :=
  if decide (code = 0%Z) then Some SeekStart
  else if decide (code = 1%Z) then Some SeekCurrent
  else if decide (code = 2%Z) then Some SeekEnd
  else None.

Definition is_newline (a : ascii) : bool := bool_decide (a = "010"%char).

Fixpoint lines_from (acc : string) (text : string) : list string :=
  match text with
  | EmptyString => if decide (acc = EmptyString) then [] else [acc]
  | String a text' =>
      if is_newline a then acc :: lines_from EmptyString text'
      else lines_from (acc +:+ String a EmptyString) text'
  end.

Definition text_lines (text : string) : list string := lines_from EmptyString text.

Definition option_flag (key : string) (o : JsObject) : bool :=
  match o !! key with Some (VBool b) => b | _ => false end.

(** The debounce interval of a watch request; zero is "immediate". *)
Definition option_delay (o : JsObject) : N :=
  match o !! "delayMs" with Some (VNum ms) => Z.to_N ms | _ => 0%N end.

(** *** The components of the core *)

Section Mediator.

(** The collaborators the core is given: the OS primitive provider, the
    base-directory resolver ([None] is the implicit root), the scope
    configuration with its glob matcher, and the coalescing table of the
    debounce layer. *)
Context {Os Pattern : Type}.
Variable os_exec : ∀ R, OsCall R → Os → Reply R * Os.
Variable base_directory : option Z → option string.
Variable matches : Pattern → string → bool.
Variable allow deny : string → list Pattern.
Variable coalesce : list ChangeEvent → list ChangeEvent.

(** Every use of the OS goes through here and is logged. *)
Definition os_call {R} (c : OsCall R) (s : Core Os) : Reply R * Core Os :=
  let '(r, os') := os_exec R c (os s) in
  (r, mkCore os' (os_log s ++ [performed c]) (handles s) (next_handle s)
             (sessions s) (next_session s) (emitted s)).

(** Modelled from the spec: [resolve] of the missing Path Resolver
    (section 4.1): reject what violates the LogicalPath invariant, look the
    root up, join, normalize and re-check descent from the root. *)
Definition resolve (logicalPath : string) (base : option Z) : ErrorKind + string :=
  match validate logicalPath with
  | Some e => inl e
  | None =>
      if is_file_url logicalPath then inr (normalize (url_path logicalPath))
      else
        match base_directory base with
        | None => inl UnresolvableBaseDirectory
        | Some root =>
            let joined := normalize (root +:+ "/" +:+ logicalPath) in
            if is_descendant root joined then inr joined else inl PathTraversal
        end
  end.

(** Modelled from the spec: [authorize] of the missing Scope Policy
    (section 4.2): some allow pattern matches and no deny pattern does. *)
Definition authorize (resolvedPath : string) (operationClass : string) : bool :=
  existsb (λ pat, matches pat resolvedPath) (allow operationClass)
  && negb (existsb (λ pat, matches pat resolvedPath) (deny operationClass)).

Fixpoint first_invalid (paths : list string) : option ErrorKind :=
  match paths with
  | [] => None
  | p :: rest =>
      match validate p with
      | Some e => Some e
      | None => first_invalid rest
      end
  end.

Fixpoint resolve_each (paths : list (string * option Z)) : ErrorKind + list string :=
  match paths with
  | [] => inr []
  | (p, base) :: rest =>
      match resolve p base with
      | inl e => inl e
      | inr rp =>
          match resolve_each rest with
          | inl e => inl e
          | inr rps => inr (rp :: rps)
          end
      end
  end.

(** Modelled from the spec: the stages of the missing Operation Dispatcher
    (section 4.5) that come before the OS primitive: validate the argument
    shape, resolve the path(s), authorize them; the first failure is the
    result. *)
Definition vet (operationClass : string) (paths : list (string * option Z))
    : ErrorKind + list string :=
  match first_invalid (fst <$> paths) with
  | Some e => inl e
  | None =>
      match resolve_each paths with
      | inl e => inl e
      | inr rps =>
          if forallb (λ rp, authorize rp operationClass) rps then inr rps
          else inl ScopeViolation
      end
  end.

Definition on_path {R} (operationClass : string) (path : string) (base : option Z)
    (primitive : string → Core Os → Reply R * Core Os) (s : Core Os) : Reply R * Core Os :=
  match vet operationClass [(path, base)] with
  | inr [rp] => primitive rp s
  | inr _ => (Rejected InvalidPath, s)
  | inl e => (Rejected e, s)
  end.

Definition on_two_paths {R} (operationClass : string)
    (path1 : string) (base1 : option Z) (path2 : string) (base2 : option Z)
    (primitive : string → string → Core Os → Reply R * Core Os) (s : Core Os)
    : Reply R * Core Os :=
  match vet operationClass [(path1, base1); (path2, base2)] with
  | inr [rp1; rp2] => primitive rp1 rp2 s
  | inr _ => (Rejected InvalidPath, s)
  | inl e => (Rejected e, s)
  end.

(** Opening: the OS yields a descriptor, the registry an identifier. *)
Definition open_file (c : Cmd N) (s : Core Os) : Reply N * Core Os :=
  match os_call (os_path_op c) s with
  | (Resolved fd, s') =>
      let '(rid, s'') := register (OpenFile fd 0) s' in (Resolved rid, s'')
  | (Rejected e, s') => (Rejected e, s')
  end.

Definition open_lines (c : Cmd string) (s : Core Os) : Reply N * Core Os :=
  match os_call (os_path_op c) s with
  | (Resolved text, s') =>
      let '(rid, s'') := register (LineReader (text_lines text)) s' in (Resolved rid, s'')
  | (Rejected e, s') => (Rejected e, s')
  end.

(** Modelled from the spec: [read] of the missing Handle Registry
    (section 4.3): at most [len] bytes, none at the end of the stream, and
    a request of length zero never reaches the OS. *)
Definition core_read (rid len : N) (s : Core Os) : Reply (list byte * N) * Core Os :=
  match handles s !! rid with
  | Some (OpenFile fd cursor) =>
      if decide (len = 0%N) then (Resolved ([], 0%N), s)
      else
        match os_call (os_pread fd cursor len) s with
        | (Resolved bytes, s') =>
            let data := take (N.to_nat len) bytes in
            let nread := N.of_nat (length data) in
            (Resolved (data, nread),
             set_handles (<[rid := OpenFile fd (cursor + nread)]> (handles s')) s')
        | (Rejected e, s') => (Rejected e, s')
        end
  | _ => (Rejected NotFound, s)
  end.

(** Modelled from the spec: [write] of the missing Handle Registry: a short
    write is an error. *)
Definition core_write (rid : N) (data : list byte) (s : Core Os) : Reply N * Core Os :=
  match handles s !! rid with
  | Some (OpenFile fd cursor) =>
      match os_call (os_pwrite fd cursor data) s with
      | (Resolved written, s') =>
          let s'' := set_handles (<[rid := OpenFile fd (cursor + written)]> (handles s')) s' in
          if decide (written < N.of_nat (length data))%N then (Rejected ShortWrite, s'')
          else (Resolved written, s'')
      | (Rejected e, s') => (Rejected e, s')
      end
  | _ => (Rejected NotFound, s)
  end.

(** Modelled from the spec: [seek] of the missing Handle Registry: the
    whence is one of the three modes, a negative absolute offset fails,
    and the reply is the new absolute offset. *)
Definition core_seek (rid : N) (offset whence : Z) (s : Core Os) : Reply N * Core Os :=
  match whence_of_code whence with
  | None => (Rejected (IOError "seek"), s)
  | Some mode =>
      match handles s !! rid with
      | Some (OpenFile fd cursor) =>
          let '(origin, s') :=
            match mode with
            | SeekStart => (Resolved 0%N, s)
            | SeekCurrent => (Resolved cursor, s)
            | SeekEnd => os_call (os_fsize fd) s
            end in
          match origin with
          | Rejected e => (Rejected e, s')
          | Resolved start =>
              let target := (Z.of_N start + offset)%Z in
              if decide (target < 0)%Z then (Rejected (IOError "seek"), s')
              else (Resolved (Z.to_N target),
                    set_handles (<[rid := OpenFile fd (Z.to_N target)]> (handles s')) s')
          end
      | _ => (Rejected NotFound, s)
      end
  end.

Definition core_fstat (rid : N) (s : Core Os) : Reply UnparsedFileInfo * Core Os :=
  match handles s !! rid with
  | Some (OpenFile fd _) => os_call (os_fstat fd) s
  | _ => (Rejected NotFound, s)
  end.

(** Modelled from the spec: [truncate] of the missing Handle Registry: an
    omitted length truncates to zero. *)
Definition core_ftruncate (rid : N) (len : option N) (s : Core Os) : Reply unit * Core Os :=
  match handles s !! rid with
  | Some (OpenFile fd _) => os_call (os_ftruncate fd (default 0%N len)) s
  | _ => (Rejected NotFound, s)
  end.

(** Modelled from the spec: the pending line-reader cursor of the missing
    Handle Registry (section 2): each request takes the next pending line;
    when none is left the reader reports the end and is released. *)
Definition core_lines_next (rid : N) (s : Core Os) : Reply (string * bool) * Core Os :=
  match handles s !! rid with
  | Some (LineReader (line :: rest)) =>
      (Resolved (line, false), set_handles (<[rid := LineReader rest]> (handles s)) s)
  | Some (LineReader []) => (Resolved (EmptyString, true), (release rid s).2)
  | _ => (Rejected NotFound, s)
  end.

(** *** Directory Watcher Manager *)

Fixpoint unsubscribe_all (subscriptions : list N) (s : Core Os) : Core Os :=
  match subscriptions with
  | [] => s
  | sub :: rest => unsubscribe_all rest (os_call (os_unsubscribe sub) s).2
  end.

Fixpoint subscribe_all (roots : list string) (recursive : bool) (s : Core Os)
    : Reply (list N) * Core Os :=
  match roots with
  | [] => (Resolved [], s)
  | root :: rest =>
      match os_call (os_subscribe root recursive) s with
      | (Rejected e, s') => (Rejected e, s')
      | (Resolved sub, s') =>
          match subscribe_all rest recursive s' with
          | (Rejected e, s'') => (Rejected e, (os_call (os_unsubscribe sub) s'').2)
          | (Resolved subs, s'') => (Resolved (sub :: subs), s'')
          end
      end
  end.

(** Modelled from the spec: the [Starting] step of the missing Directory
    Watcher Manager (section 4.4): all roots are resolved and authorized
    before any OS subscription is made; then the session is [Active]. *)
Definition core_watch (paths : list string) (opts : JsObject) (onEvent : Channel)
    (s : Core Os) : Reply N * Core Os :=
  match vet "plugin:fs|watch" ((λ p, (p, base_of "baseDir" (Some opts))) <$> paths) with
  | inl e => (Rejected e, s)
  | inr roots =>
      match subscribe_all roots (option_flag "recursive" opts) s with
      | (Rejected e, s') => (Rejected e, s')
      | (Resolved subs, s') =>
          let sid := next_session s' in
          let session :=
            mkWatchSession roots (option_flag "recursive" opts) (option_delay opts)
                           subs onEvent [] Active in
          (Resolved sid,
           mkCore (os s') (os_log s') (handles s') (next_handle s')
                  (<[sid := session]> (sessions s')) (N.succ sid) (emitted s'))
      end
  end.

Definition stopped (w : WatchSession) : WatchSession :=
  mkWatchSession (session_roots w) (session_recursive w) (session_delay w) []
                 (session_channel w) [] Stopped.

(** Modelled from the spec: [unwatch] of the missing Directory Watcher
    Manager: an active session releases its subscriptions, drops what is
    buffered and is [Stopped]; a stopped or unknown one is left alone, and
    in every case the call succeeds. *)
Definition core_unwatch (sid : N) (s : Core Os) : Reply unit * Core Os :=
  match sessions s !! sid with
  | Some w =>
      match session_state w with
      | Stopped => (Resolved tt, s)
      | _ =>
          let s' := unsubscribe_all (session_subscriptions w) s in
          (Resolved tt, set_sessions (<[sid := stopped w]> (sessions s')) s')
      end
  | None => (Resolved tt, s)
  end.

(** What drives a session once it exists. *)
Inductive WatcherMsg : Type :=
| RawEvent (sid : N) (event : ChangeEvent)
| TimerFire (sid : N)
| StopRequest (sid : N).

Definition with_buffer (buffer : list ChangeEvent) (w : WatchSession) : WatchSession :=
  mkWatchSession (session_roots w) (session_recursive w) (session_delay w)
                 (session_subscriptions w) (session_channel w) buffer (session_state w).

Definition is_active (w : WatchSession) : bool :=
  match session_state w with Active => true | _ => false end.

Definition emit_batch (sid : N) (batch : list ChangeEvent) (s : Core Os) : Core Os :=
  match batch with
  | [] => s
  | _ :: _ => emit sid batch s
  end.

(** Modelled from the spec: the [Active] state of the missing Directory
    Watcher Manager: raw events are buffered for the delay window (or
    emitted at once when the delay is zero), a timer fire emits the
    coalesced buffer as one batch and clears it, and nothing is emitted
    for a session that is not active. *)
Definition manager_step (s : Core Os) (msg : WatcherMsg) : Core Os :=
  match msg with
  | RawEvent sid event =>
      match sessions s !! sid with
      | Some w =>
          if is_active w then
            if decide (session_delay w = 0%N) then emit_batch sid (coalesce [event]) s
            else set_sessions (<[sid := with_buffer (session_buffer w ++ [event]) w]> (sessions s)) s
          else s
      | None => s
      end
  | TimerFire sid =>
      match sessions s !! sid with
      | Some w =>
          if is_active w then
            emit_batch sid (coalesce (session_buffer w))
                       (set_sessions (<[sid := with_buffer [] w]> (sessions s)) s)
          else s
      | None => s
      end
  | StopRequest sid => (core_unwatch sid s).2
  end.

(** *** Operation Dispatcher *)

(** Modelled from the spec: the missing Operation Dispatcher
    (section 4.5): each command is vetted, then performed by the OS
    primitive, then recorded in the registry or the watcher manager. *)
Definition core : Handler (Core Os) := λ R c,
  match c in Cmd R return Core Os → Reply R * Core Os with
  | fs_read rid len => core_read rid len
  | fs_seek rid offset whence => core_seek rid offset whence
  | fs_fstat rid => core_fstat rid
  | fs_ftruncate rid len => core_ftruncate rid len
  | fs_write rid data => core_write rid data
  | fs_create path options =>
      on_path "plugin:fs|create" path (base_of "baseDir" options)
              (λ rp, open_file (fs_create rp options))
  | fs_open path options =>
      on_path "plugin:fs|open" path (base_of "baseDir" options)
              (λ rp, open_file (fs_open rp options))
  | fs_copy_file fromPath toPath options =>
      on_two_paths "plugin:fs|copy_file"
                   fromPath (base_of "fromPathBaseDir" options)
                   toPath (base_of "toPathBaseDir" options)
                   (λ rp1 rp2, os_call (os_path_op (fs_copy_file rp1 rp2 options)))
  | fs_mkdir path options =>
      on_path "plugin:fs|mkdir" path (base_of "baseDir" options)
              (λ rp, os_call (os_path_op (fs_mkdir rp options)))
  | fs_read_dir path options =>
      on_path "plugin:fs|read_dir" path (base_of "baseDir" options)
              (λ rp, os_call (os_path_op (fs_read_dir rp options)))
  | fs_read_file path options =>
      on_path "plugin:fs|read_file" path (base_of "baseDir" options)
              (λ rp, os_call (os_path_op (fs_read_file rp options)))
  | fs_read_text_file path options =>
      on_path "plugin:fs|read_text_file" path (base_of "baseDir" options)
              (λ rp, os_call (os_path_op (fs_read_text_file rp options)))
  | fs_read_text_file_lines path options =>
      on_path "plugin:fs|read_text_file_lines" path (base_of "baseDir" options)
              (λ rp, open_lines (fs_read_text_file rp options))
  | fs_read_text_file_lines_next rid => core_lines_next rid
  | fs_remove path options =>
      on_path "plugin:fs|remove" path (base_of "baseDir" options)
              (λ rp, os_call (os_path_op (fs_remove rp options)))
  | fs_rename oldPath newPath options =>
      on_two_paths "plugin:fs|rename"
                   oldPath (base_of "oldPathBaseDir" options)
                   newPath (base_of "newPathBaseDir" options)
                   (λ rp1 rp2, os_call (os_path_op (fs_rename rp1 rp2 options)))
  | fs_stat path options =>
      on_path "plugin:fs|stat" path (base_of "baseDir" options)
              (λ rp, os_call (os_path_op (fs_stat rp options)))
  | fs_lstat path options =>
      on_path "plugin:fs|lstat" path (base_of "baseDir" options)
              (λ rp, os_call (os_path_op (fs_lstat rp options)))
  | fs_truncate path len options =>
      on_path "plugin:fs|truncate" path (base_of "baseDir" options)
              (λ rp, os_call (os_path_op (fs_truncate rp len options)))
  | fs_write_file path data options =>
      on_path "plugin:fs|write_file" path (base_of "baseDir" options)
              (λ rp, os_call (os_path_op (fs_write_file rp data options)))
  | fs_write_text_file path data options =>
      on_path "plugin:fs|write_text_file" path (base_of "baseDir" options)
              (λ rp, os_call (os_path_op (fs_write_text_file rp data options)))
  | fs_exists path options =>
      on_path "plugin:fs|exists" path (base_of "baseDir" options)
              (λ rp, os_call (os_path_op (fs_exists rp options)))
  | fs_unwatch rid => core_unwatch rid
  | fs_watch paths options onEvent => core_watch paths options onEvent
  end.

(** A path argument that must not get through: a URL of another scheme,
    a path that does not resolve, or a resolved path the scope denies. *)
Definition unacceptable (operationClass : string) (path : PathArg) (base : option Z)
    : Prop :=
  is_non_file_url path = true
  ∨ (∃ e, resolve (path_to_string path) base = inl e)
  ∨ (∃ rp, resolve (path_to_string path) base = inr rp
           ∧ authorize rp operationClass = false).

End Mediator.

(** A path with a [..] segment, or an absolute one. *)
Definition violates (p : string) : Prop :=
  has_parent_segment p = true ∨ is_absolute p = true.

(** The errors that stand for an invalid path: the two kinds of the resolver,
    and the client's own rejection of a URL that is not a file URL. *)
Definition invalid_path_error (e : JsError) : Prop :=
  e = InvokeError PathTraversal ∨ e = InvokeError InvalidPath
  ∨ e = TypeError "Must be a file URL.".

(** The logical paths a command carries. *)
Definition cmd_paths {R} (c : Cmd R) : list string :=
  match c with
  | fs_create path _ | fs_open path _ | fs_mkdir path _ | fs_read_dir path _
  | fs_read_file path _ | fs_read_text_file path _ | fs_read_text_file_lines path _
  | fs_remove path _ | fs_stat path _ | fs_lstat path _ | fs_truncate path _ _
  | fs_write_file path _ _ | fs_write_text_file path _ _ | fs_exists path _ => [path]
  | fs_copy_file fromPath toPath _ => [fromPath; toPath]
  | fs_rename oldPath newPath _ => [oldPath; newPath]
  | fs_watch paths _ _ => paths
  | _ => []
  end.

(** A seek that aims at [target]: it fails and leaves the registry alone
    when the target is negative, and otherwise resolves to the target, which
    is then the position of the handle. *)
Definition lands_at {Os} (s : Core Os) (r : Settled N * Core Os * list Call)
    (rid fd : N) (target : Z) : Prop :=
  if decide (target < 0)%Z
  then outcome r = Failed (InvokeError (IOError "seek"))
       ∧ handles (final r) = handles s
  else outcome r = Fulfilled (Z.to_N target)
       ∧ handles (final r) !! rid = Some (OpenFile fd (Z.to_N target)).

(** The batches emitted so far on the channel of session [sid]. *)
Definition events_on {Os} (sid : N) (s : Core Os) : list (N * list ChangeEvent) :=
  filter (λ e, e.1 = sid) (emitted s).

(** Session [sid] is stopped or unknown. *)
Definition quiet {Os} (sid : N) (s : Core Os) : Prop :=
  match sessions s !! sid with
  | Some w => session_state w ≠ Active
  | None => True
  end.

(** One [next()] call against a backend: how it settled, the iterator object
    and the backend afterwards. *)
Definition call_next {S} (backend : Handler S) (it : LinesIterator) (b : S)
    : Settled IteratorResult * LinesIterator * S :=
  match run backend (next it) b with
  | (Fulfilled (r, it'), b', _) => (r, it', b')
  | (Failed e, b', _) => (Failed e, it, b')
  end.

(** [n] successive [next()] calls on the same iterator object. *)
Fixpoint iterate {S} (backend : Handler S) (n : nat) (it : LinesIterator) (b : S)
    : list (Settled IteratorResult) * LinesIterator * S :=
  match n with
  | O => ([], it, b)
  | Datatypes.S n' =>
      let '(r, it', b') := call_next backend it b in
      let '(rs, it'', b'') := iterate backend n' it' b' in
      (r :: rs, it'', b'')
  end.

Definition yielded (line : string) : Settled IteratorResult :=
  Fulfilled {| value := line; done := false |}.

Definition finished : Settled IteratorResult :=
  Fulfilled {| value := EmptyString; done := true |}.

(** ** The operations that accept a path

    One constructor per exported function with a path parameter, carrying the
    arguments of a call. *)
Inductive PathOperation : Type :=
| call_create (path : PathArg) (options : Options)
| call_open (path : PathArg) (options : Options)
| call_copyFile (fromPath toPath : PathArg) (options : Options)
| call_mkdir (path : PathArg) (options : Options)
| call_readDir (path : PathArg) (options : Options)
| call_readFile (path : PathArg) (options : Options)
| call_readTextFile (path : PathArg) (options : Options)
| call_readTextFileLines (path : PathArg) (options : Options)
| call_remove (path : PathArg) (options : Options)
| call_rename (oldPath newPath : PathArg) (options : Options)
| call_stat (path : PathArg) (options : Options)
| call_lstat (path : PathArg) (options : Options)
| call_truncate (path : PathArg) (len : option N) (options : Options)
| call_writeFile (path : PathArg) (data : Uint8Array) (options : Options)
| call_writeTextFile (path : PathArg) (data : string) (options : Options)
| call_exists (path : PathArg) (options : Options)
| call_watch (paths : WatchPaths) (cb : Callback) (options : Options)
| call_watchImmediate (paths : WatchPaths) (cb : Callback) (options : Options).

Definition path_arguments (op : PathOperation) : list PathArg :=
  match op with
  | call_create path _ | call_open path _ | call_mkdir path _ | call_readDir path _
  | call_readFile path _ | call_readTextFile path _ | call_readTextFileLines path _
  | call_remove path _ | call_stat path _ | call_lstat path _ | call_truncate path _ _
  | call_writeFile path _ _ | call_writeTextFile path _ _ | call_exists path _ => [path]
  | call_copyFile fromPath toPath _ => [fromPath; toPath]
  | call_rename oldPath newPath _ => [oldPath; newPath]
  | call_watch paths _ _ | call_watchImmediate paths _ _ => to_watchPaths paths
  end.

(** The call, with its value dropped. [readTextFileLines] only builds the
    iterator; its path is used by [next()], so the operation here is the
    call followed by the first [next()]. *)
Definition perform (op : PathOperation) : Prog unit :=
  match op with
  | call_create path options => _ ← create path options; Ret tt
  | call_open path options => _ ← open path options; Ret tt
  | call_copyFile fromPath toPath options => copyFile fromPath toPath options
  | call_mkdir path options => mkdir path options
  | call_readDir path options => _ ← readDir path options; Ret tt
  | call_readFile path options => _ ← readFile path options; Ret tt
  | call_readTextFile path options => _ ← readTextFile path options; Ret tt
  | call_readTextFileLines path options =>
      lines ← readTextFileLines path options;
      r ← next lines;
      match r.1 with
      | Fulfilled _ => Ret tt
      | Failed e => Throw e
      end
  | call_remove path options => remove path options
  | call_rename oldPath newPath options => rename oldPath newPath options
  | call_stat path options => _ ← stat path options; Ret tt
  | call_lstat path options => _ ← lstat path options; Ret tt
  | call_truncate path len options => truncate path len options
  | call_writeFile path data options => writeFile path data options
  | call_writeTextFile path data options => writeTextFile path data options
  | call_exists path options => _ ← exists_ path options; Ret tt
  | call_watch paths cb options => _ ← watch paths cb options; Ret tt
  | call_watchImmediate paths cb options => _ ← watchImmediate paths cb options; Ret tt
  end.

Definition is_stat_call (op : PathOperation) : bool :=
  match op with
  | call_stat _ _ | call_lstat _ _ => true
  | _ => false
  end.

(** The caller's own property [key]: [None] when there are no options at
    all, or an object without it. A property given as [undefined] is still an
    own property. *)
Definition own_property (key : string) (options : Options) : option JsValue :=
  match options with
  | Some o => o !! key
  | None => None
  end.

(** What reading [options?.[key]] gives: [undefined] when the property is
    absent, and also when it is present with the value [undefined]. *)
Definition read_property (key : string) (options : Options) : JsValue :=
  default VUndefined (own_property key options).

(** ** A small host

    A concrete provider, directory table and scope on which the definitions
    above can be evaluated: the OS state is a table of text files. *)

Definition demo_path_op {R} (c : Cmd R) (files : gmap string string)
    : Reply R * gmap string string :=
  match c in Cmd R return Reply R * gmap string string with
  | fs_open _ _ => (Resolved 3%N, files)
  | fs_create path _ => (Resolved 3%N, <[path := EmptyString]> files)
  | fs_read_text_file path _ =>
      match files !! path with
      | Some text => (Resolved text, files)
      | None => (Rejected (IOError "read_text_file"), files)
      end
  | fs_copy_file fromPath toPath _ =>
      match files !! fromPath with
      | Some text => (Resolved tt, <[toPath := text]> files)
      | None => (Rejected (IOError "copy_file"), files)
      end
  | fs_rename oldPath newPath _ =>
      match files !! oldPath with
      | Some text => (Resolved tt, <[newPath := text]> (delete oldPath files))
      | None => (Rejected (IOError "rename"), files)
      end
  | fs_remove path _ => (Resolved tt, delete path files)
  | fs_exists path _ => (Resolved (bool_decide (is_Some (files !! path))), files)
  | _ => (Rejected (IOError "unsupported"), files)
  end.

Definition demo_os_exec : ∀ R, OsCall R → gmap string string → Reply R * gmap string string :=
  λ R c files,
    match c in OsCall R return Reply R * gmap string string with
    | os_path_op c' => demo_path_op c' files
    | os_pread _ pos _ =>
        (Resolved (if decide (pos = 0%N) then ["h"%byte; "i"%byte] else []), files)
    | os_pwrite _ _ data => (Resolved (N.of_nat (length data)), files)
    | os_fsize _ => (Resolved 11%N, files)
    | os_fstat _ => (Rejected (IOError "fstat"), files)
    | os_ftruncate _ _ => (Resolved tt, files)
    | os_subscribe _ _ => (Resolved 1%N, files)
    | os_unsubscribe _ => (Resolved tt, files)
    end.

(** Token 14 is [BaseDirectory.AppData]; no token is the implicit root. *)
Definition demo_base_directory (base : option Z) : option string :=
  match base with
  | None => Some "/app"
  | Some 14%Z => Some "/app/data"
  | Some _ => None
  end.

(** Patterns of the example scope are path prefixes. *)
Definition demo_matches (pattern path : string) : bool := String.prefix pattern path.

Definition demo_allow (operationClass : string) : list string := ["/app"].

Definition demo_deny (operationClass : string) : list string := ["/app/secret"].

Definition demo_coalesce (events : list ChangeEvent) : list ChangeEvent := events.

Definition demo_core : Handler (Core (gmap string string)) :=
  core demo_os_exec demo_base_directory demo_matches demo_allow demo_deny.

Definition two_lines : string :=
  "one" +:+ String "010"%char EmptyString +:+ "two".

Definition demo_state : Core (gmap string string) :=
  mkCore (<["/app/notes.txt" := two_lines]> ∅) []
         (<[1%N := OpenFile 3 5]> ∅) 2
         (<[1%N := mkWatchSession ["/app/logs"] false 0 [1%N] (mkChannel (CallbackRef 1)) [] Active]> ∅)
         2 [].

(** ** More of the client's surface *)

(** The command string each operation invokes. *)
Definition command_of (op : PathOperation) : string :=
  match op with
  | call_create _ _ => "plugin:fs|create"
  | call_open _ _ => "plugin:fs|open"
  | call_copyFile _ _ _ => "plugin:fs|copy_file"
  | call_mkdir _ _ => "plugin:fs|mkdir"
  | call_readDir _ _ => "plugin:fs|read_dir"
  | call_readFile _ _ => "plugin:fs|read_file"
  | call_readTextFile _ _ => "plugin:fs|read_text_file"
  | call_readTextFileLines _ _ => "plugin:fs|read_text_file_lines"
  | call_remove _ _ => "plugin:fs|remove"
  | call_rename _ _ _ => "plugin:fs|rename"
  | call_stat _ _ => "plugin:fs|stat"
  | call_lstat _ _ => "plugin:fs|lstat"
  | call_truncate _ _ _ => "plugin:fs|truncate"
  | call_writeFile _ _ _ => "plugin:fs|write_file"
  | call_writeTextFile _ _ _ => "plugin:fs|write_text_file"
  | call_exists _ _ => "plugin:fs|exists"
  | call_watch _ _ _ | call_watchImmediate _ _ _ => "plugin:fs|watch"
  end.

(** Some path argument is a URL of another scheme and the operation has the
    check for it. *)
Definition guard_rejects (op : PathOperation) : bool :=
  negb (is_stat_call op) && existsb is_non_file_url (path_arguments op).

Definition is_lines_call (op : PathOperation) : bool :=
  match op with
  | call_readTextFileLines _ _ => true
  | _ => false
  end.

(** The methods of a file handle, with the arguments of a call. *)
Inductive HandleMethod : Type :=
| method_read (buffer : Uint8Array)
| method_seek (offset whence : Z)
| method_stat
| method_truncate (len : option N)
| method_write (data : Uint8Array).

(** The method call, with its value dropped. *)
Definition call_method (h : FileHandle.t) (m : HandleMethod) : Prog unit :=
  match m with
  | method_read buffer => _ ← FileHandle.read h buffer; Ret tt
  | method_seek offset whence => _ ← FileHandle.seek h offset whence; Ret tt
  | method_stat => _ ← FileHandle.stat h; Ret tt
  | method_truncate len => FileHandle.truncate h len
  | method_write data => _ ← FileHandle.write h data; Ret tt
  end.

(** The backend calls expected of a method on the handle [rid]. *)
Definition method_calls (rid : N) (m : HandleMethod) : list Call :=
  match m with
  | method_read buffer =>
      if decide (byteLength buffer = 0%N) then []
      else [call (fs_read rid (byteLength buffer))]
  | method_seek offset whence => [call (fs_seek rid offset whence)]
  | method_stat => [call (fs_fstat rid)]
  | method_truncate len => [call (fs_ftruncate rid len)]
  | method_write data => [call (fs_write rid data)]
  end.

(** The object a compiled TypeScript enum builds: each member
    [E[E["Name"] = code] = "Name"] sets the property [Name] to the code and
    the property named by the code to the name. *)
Definition enum_member (obj : JsObject) (member : string * Z) : JsObject :=
  <[pretty member.2 := VStr member.1]> (<[member.1 := VNum member.2]> obj).

Definition make_enum (members : list (string * Z)) : JsObject :=
  foldl enum_member ∅ members.

Definition SeekMode_members : list (string * Z) :=
  [("Start", 0%Z); ("Current", 1%Z); ("End", 2%Z)].

(** Names and codes are distinct and no name is the numeral of a code. *)
Definition enum_ok (members : list (string * Z)) : Prop :=
  NoDup members.*1 ∧ NoDup members.*2
  ∧ Forall (λ name, Forall (λ code, name ≠ pretty code) members.*2) members.*1.

#[global] Instance enum_ok_dec (members : list (string * Z)) : Decision (enum_ok members).
Proof. unfold enum_ok. apply _. Defined.

(** ** The earlier API: [dist-js/index.mjs] and the second document of
    [dist-js/index.js]

    Arguments are taken at their declared types: a path is a string, the
    first argument of [writeTextFile] a string or a file object, its second
    a string, an options object or [undefined]. *)
Module Legacy.

Definition BaseDirectory_members : list (string * Z) :=
  [("Audio", 1%Z); ("Cache", 2%Z); ("Config", 3%Z); ("Data", 4%Z);
   ("LocalData", 5%Z); ("Document", 6%Z); ("Download", 7%Z); ("Picture", 8%Z);
   ("Public", 9%Z); ("Video", 10%Z); ("Resource", 11%Z); ("Temp", 12%Z);
   ("AppConfig", 13%Z); ("AppData", 14%Z); ("AppLocalData", 15%Z);
   ("AppCache", 16%Z); ("AppLog", 17%Z); ("Desktop", 18%Z); ("Executable", 19%Z);
   ("Font", 20%Z); ("Home", 21%Z); ("Runtime", 22%Z); ("Template", 23%Z)].

Definition BaseDirectory : JsObject := make_enum BaseDirectory_members.

(** The commands of the functions embedded here. *)
Inductive Cmd : Type → Type :=
| fs_write_file (path : string) (contents : list byte) (options : Options) : Cmd unit
| fs_metadata (path : string) : Cmd JsObject.

Inductive Prog (A : Type) : Type :=
| Ret (a : A)
| Throw (e : JsError)
| Invoke {R : Type} (c : Cmd R) (k : Reply R → Prog A).
Arguments Ret {A} a.
Arguments Throw {A} e.
Arguments Invoke {A R} c k.

Fixpoint run {S A} (h : ∀ R, Cmd R → S → Reply R * S) (p : Prog A) (s : S)
    : Settled A * S * list (sigT Cmd) :=
  match p with
  | Ret a => (Fulfilled a, s, [])
  | Throw e => (Failed e, s, [])
  | Invoke c k =>
      let '(r, s') := h _ c s in
      let '(o, s'', log) := run h (k r) s' in
      (o, s'', existT _ c :: log)
  end.

(** [invoke(c).then(f)]; without [then], [f] is the identity. *)
Definition invoke_then {R A} (c : Cmd R) (f : R → A) : Prog A :=
  Invoke c (λ r, match r with
                 | Resolved v => Ret (f v)
                 | Rejected e => Throw (InvokeError e)
                 end).

(** The first argument of [writeTextFile]. *)
Inductive TextTarget : Type :=
| TargetPath (path : string)
| TargetFile (path contents : string).

(** Its second argument: the contents, or what takes the place of the
    options ([undefined] or an object). *)
Inductive SecondArgument : Type :=
| SecondContents (contents : string)
| SecondOptions (options : Options).

(** Which of the caller's objects [Object.freeze] was applied to. *)
Record Frozen : Type := mkFrozen { first_frozen : bool; third_frozen : bool }.

(** [new TextEncoder().encode(s)]: strings are held by their UTF-8 bytes. *)
Definition encode (s : string) : list byte := list_byte_of_string s.

Definition writeTextFile (path : TextTarget) (contents : SecondArgument) (options : Options)
    : Frozen * Prog unit :=
  let frozen :=
    {| first_frozen := match path with TargetFile _ _ => true | TargetPath _ => false end;
       third_frozen := match options with Some _ => true | None => false end |} in
  let file_path := match path with TargetPath p => p | TargetFile p _ => p end in
  let file_contents := match path with TargetPath _ => EmptyString | TargetFile _ c => c end in
  let file_contents :=
    match contents with SecondContents c => c | SecondOptions _ => file_contents end in
  let fileOptions :=
    match contents with SecondContents _ => options | SecondOptions o => o end in
  (frozen, invoke_then (fs_write_file file_path (encode file_contents) fileOptions) id).

(** A property value of the object [metadata] resolves to: a value of the
    reply, or [new Date(ms)]. *)
Inductive MetadataValue : Type :=
| Plain (v : JsValue)
| DateOf (ms : JsValue).

(** [obj.key], [undefined] when there is no such property. *)
Definition property (obj : JsObject) (key : string) : JsValue :=
  default VUndefined (obj !! key).

(** The callback of [then] in [metadata]. *)
Definition metadata_result (metadata : JsObject) : gmap string MetadataValue :=
  let data := delete "modifiedAtMs" (delete "createdAtMs" (delete "accessedAtMs" metadata)) in
  (Plain <$> data)
  ∪ <["modifiedAt" := DateOf (property metadata "modifiedAtMs")]>
      (<["createdAt" := DateOf (property metadata "createdAtMs")]>
      (<["accessedAt" := DateOf (property metadata "accessedAtMs")]> ∅)).

Definition metadata (path : string) : Prog (gmap string MetadataValue) :=
  invoke_then (fs_metadata path) metadata_result.

End Legacy.



(** The timestamps of a reply that [Date] can hold. *)
Definition valid_time (t : option N) : Prop :=
  match t with
  | Some ms => (ms ≤ max_time)%N
  | None => True
  end.

Definition valid_times (r : UnparsedFileInfo) : Prop :=
  valid_time (u_mtime r) ∧ valid_time (u_atime r) ∧ valid_time (u_birthtime r).

(** The reply for a regular file of 42 bytes last modified at [ms], on a
    platform that reports no birth time. *)
Definition demo_file_info (ms : N) : UnparsedFileInfo :=
  {| u_isFile := true; u_isDirectory := false; u_isSymlink := false; u_size := 42;
     u_mtime := Some ms; u_atime := Some ms; u_birthtime := None;
     u_readonly := false; u_fileAttributes := VNull;
     u_dev := VNum 1; u_ino := VNum 7; u_mode := VNum 420; u_nlink := VNum 1;
     u_uid := VNum 1000; u_gid := VNum 1000; u_rdev := VNum 0; u_blksize := VNum 4096;
     u_blocks := VNum 8 |}.

(** * Properties *)

(** ** Running programs *)

Lemma bind_Ret {A B} (a : A) (f : A → Prog B) : Ret a ≫= f = f a.
Proof. reflexivity. Qed.

Lemma run_invoke {S R} (backend : Handler S) (c : Cmd R) (s : S) :
  run backend (invoke c) s =
  (match (backend R c s).1 with
   | Resolved v => Fulfilled v
   | Rejected e => Failed (InvokeError e)
   end, (backend R c s).2, [call c]).
Proof.
  unfold invoke. simpl. destruct (backend R c s) as [[v|e] s']; reflexivity.
Qed.

Lemma run_bind {S A B} (backend : Handler S) (p : Prog A) (f : A → Prog B) (s : S) :
  run backend (p ≫= f) s =
  match run backend p s with
  | (Fulfilled a, s', log) =>
      let '(o, s'', log') := run backend (f a) s' in (o, s'', log ++ log')
  | (Failed e, s', log) => (Failed e, s', log)
  end.
Proof.
  revert s. induction p as [a|e|R c k IH]; intros s; simpl.
  - destruct (run backend (f a) s) as [[o s''] log']. reflexivity.
  - reflexivity.
  - destruct (backend R c s) as [r s'].
    change (bind (k r) f) with (k r ≫= f).
    rewrite IH.
    destruct (run backend (k r) s') as [[[a|e] s''] log]; simpl; [|reflexivity].
    destruct (run backend (f a) s'') as [[o s3] log']. reflexivity.
Qed.

Lemma run_stat {S} (backend : Handler S) (path : PathArg) (options : Options) (s : S) :
  run backend (stat path options) s =
  (match (backend _ (fs_stat (path_to_string path) options) s).1 with
   | Resolved v => Fulfilled (parseFileInfo v)
   | Rejected e => Failed (InvokeError e)
   end,
   (backend _ (fs_stat (path_to_string path) options) s).2,
   [call (fs_stat (path_to_string path) options)]).
Proof.
  unfold stat. rewrite run_bind, run_invoke.
  by destruct (backend _ (fs_stat (path_to_string path) options) s) as [[v|e] s1].
Qed.

Lemma run_lstat {S} (backend : Handler S) (path : PathArg) (options : Options) (s : S) :
  run backend (lstat path options) s =
  (match (backend _ (fs_lstat (path_to_string path) options) s).1 with
   | Resolved v => Fulfilled (parseFileInfo v)
   | Rejected e => Failed (InvokeError e)
   end,
   (backend _ (fs_lstat (path_to_string path) options) s).2,
   [call (fs_lstat (path_to_string path) options)]).
Proof.
  unfold lstat. rewrite run_bind, run_invoke.
  by destruct (backend _ (fs_lstat (path_to_string path) options) s) as [[v|e] s1].
Qed.

Lemma run_void_unwatch {S} (backend : Handler S) (rid : N) (b : S) :
  run backend (void (unwatch rid)) b
  = (Fulfilled tt, (backend _ (fs_unwatch rid) b).2, [call (fs_unwatch rid)]).
Proof.
  unfold unwatch, invoke. simpl.
  by destruct (backend _ (fs_unwatch rid) b) as [[[]|e] b'].
Qed.

(** ** The file-scheme guard of the client *)

Lemma non_file_url_guard (u : URL) :
  protocol u ≠ "file:" → is_non_file_url (PathURL u) = true.
Proof. intros H. simpl. by apply bool_decide_eq_true. Qed.

Lemma check_file_urls_cases (ps : list PathArg) :
  check_file_urls ps = Throw must_be_file_url ∨ check_file_urls ps = Ret tt.
Proof.
  induction ps as [|p ps IH]; simpl; [by right|]. destruct (is_non_file_url p); auto.
Qed.

Lemma check_file_urls_rejects (ps : list PathArg) (p : PathArg) :
  p ∈ ps → is_non_file_url p = true → check_file_urls ps = Throw must_be_file_url.
Proof.
  induction 1 as [p ps|p q ps Hin IH]; intros Hp; simpl.
  - by rewrite Hp.
  - destruct (is_non_file_url q); [done|]. by apply IH.
Qed.

Lemma check_file_urls_passes (ps : list PathArg) :
  (∀ p, p ∈ ps → is_non_file_url p = false) → check_file_urls ps = Ret tt.
Proof.
  induction ps as [|q ps IH]; intros H; simpl; [done|].
  rewrite (H q) by apply list_elem_of_here.
  apply IH. intros p Hp. apply H. by apply list_elem_of_further.
Qed.

(** Every operation other than [stat] and [lstat] throws at a URL that is
    not a file URL, before any call to the backend. *)
Lemma file_url_guard (op : PathOperation) (p : PathArg) :
  is_stat_call op = false → p ∈ path_arguments op → is_non_file_url p = true →
  perform op = Throw must_be_file_url.
Proof.
  intros Hop Hin Hp.
  destruct op; simpl in Hop; try discriminate; simpl in Hin;
    repeat match goal with
    | H : _ ∈ [_] |- _ => apply list_elem_of_singleton in H; subst
    end;
    try (simpl; unfold create, open, mkdir, readDir, readFile, readTextFile,
           readTextFileLines, remove, truncate, writeFile, writeTextFile, exists_;
         rewrite Hp; reflexivity).
  - simpl. unfold copyFile.
    apply elem_of_cons in Hin as [->|Hin]; [by rewrite Hp|].
    apply list_elem_of_singleton in Hin as ->. rewrite Hp. by rewrite orb_true_r.
  - simpl. unfold rename.
    apply elem_of_cons in Hin as [->|Hin]; [by rewrite Hp|].
    apply list_elem_of_singleton in Hin as ->. rewrite Hp. by rewrite orb_true_r.
  - simpl. unfold watch. by rewrite (check_file_urls_rejects _ _ Hin Hp).
  - simpl. unfold watchImmediate. by rewrite (check_file_urls_rejects _ _ Hin Hp).
Qed.

(** C2. The claim asks every operation that accepts a path to reject a URL
    whose protocol is not ["file:"] with "Must be a file URL." before the
    backend is invoked. [stat] does not: at the URL [https://example.com/a]
    the guard condition holds, yet against every backend the call reaches
    the backend with the stringified URL and never fails with that
    [TypeError]. ([file_url_guard] shows the rejection for the other
    operations.) *)
Theorem stat_reaches_backend_with_non_file_url :
  let u := mkURL "https:" "https://example.com/a" in
  is_non_file_url (PathURL u) = true
  ∧ ∀ S (backend : Handler S) (s : S),
      calls (run backend (perform (call_stat (PathURL u) None)) s)
        = [call (fs_stat "https://example.com/a" None)]
      ∧ outcome (run backend (perform (call_stat (PathURL u) None)) s)
        ≠ Failed (TypeError "Must be a file URL.").
Proof.
  split; [reflexivity|]. intros S backend s. unfold perform.
  rewrite run_bind, run_stat. unfold calls, outcome. simpl.
  destruct (backend _ (fs_stat "https://example.com/a" None) s) as [[v|e] s1]; simpl; done.
Qed.

(** C8. For a URL whose protocol is not ["file:"], [stat] and [lstat] are
    the plain forwarding programs: one [invoke] with the stringified URL as
    [path], no "Must be a file URL." rejection, whatever the backend; every
    other operation that accepts a path throws that [TypeError] when the URL
    is among its path arguments. *)
Theorem stat_lstat_forward_any_url (u : URL) (options : Options) :
  protocol u ≠ "file:" →
  stat (PathURL u) options
    = (res ← invoke (fs_stat (href u) options); Ret (parseFileInfo res))
  ∧ lstat (PathURL u) options
    = (res ← invoke (fs_lstat (href u) options); Ret (parseFileInfo res))
  ∧ (∀ S (backend : Handler S) (s : S),
       calls (run backend (stat (PathURL u) options) s) = [call (fs_stat (href u) options)]
       ∧ calls (run backend (lstat (PathURL u) options) s) = [call (fs_lstat (href u) options)]
       ∧ outcome (run backend (stat (PathURL u) options) s)
         ≠ Failed (TypeError "Must be a file URL.")
       ∧ outcome (run backend (lstat (PathURL u) options) s)
         ≠ Failed (TypeError "Must be a file URL."))
  ∧ (∀ op, is_stat_call op = false → PathURL u ∈ path_arguments op →
       perform op = Throw (TypeError "Must be a file URL.")).
Proof.
  intros Hu. split; [reflexivity|]. split; [reflexivity|]. split.
  - intros S backend s. rewrite run_stat, run_lstat. unfold calls, outcome. simpl.
    repeat split.
    + by destruct (backend _ (fs_stat (href u) options) s).1.
    + by destruct (backend _ (fs_lstat (href u) options) s).1.
  - intros op Hop Hin. apply (file_url_guard op (PathURL u)); auto using non_file_url_guard.
Qed.

Lemma stat_lstat_forward_any_url_witness :
  stat (PathURL (mkURL "ftp:" "ftp://host/pub/a")) None
  = (res ← invoke (fs_stat "ftp://host/pub/a" None); Ret (parseFileInfo res)).
Proof.
  apply (stat_lstat_forward_any_url (mkURL "ftp:" "ftp://host/pub/a") None).
  simpl. discriminate.
Defined.

(** ** Reading through a file handle *)

(** C4. For every file handle, [read] with a buffer of length zero is the
    program that returns [0] at once: it contains no [invoke], so against
    every backend it resolves to [0] with the buffer and the backend state
    untouched and the list of calls empty. *)
Theorem read_zero_length_short_circuits (h : FileHandle.t) (buffer : Uint8Array) :
  byteLength buffer = 0%N →
  FileHandle.read h buffer = Ret (Some 0%N, buffer)
  ∧ ∀ S (backend : Handler S) (s : S),
      run backend (FileHandle.read h buffer) s = (Fulfilled (Some 0%N, buffer), s, []).
Proof.
  intros Hlen. unfold FileHandle.read.
  destruct (decide (byteLength buffer = 0%N)) as [_|Hne]; [|contradiction].
  split; [reflexivity|]. intros. reflexivity.
Qed.

Lemma read_zero_length_short_circuits_witness :
  FileHandle.read (FileHandle.new 7) [] = Ret (Some 0%N, []).
Proof.
  apply (read_zero_length_short_circuits (FileHandle.new 7) []). reflexivity.
Defined.

(** C5. For every file handle and every non-empty buffer: when the backend
    answers the one [read] request with [(data, nread)], where [data] fits
    the buffer, [read] copies [data] to the start of the caller's buffer and
    resolves to [null] exactly when [nread] is zero, and to [nread], a
    positive number, otherwise; it never resolves to [0], the value of the
    zero-length success. *)
Theorem read_eof_exactly_when_exhausted {S} (backend : Handler S) (s s' : S)
    (h : FileHandle.t) (buffer : Uint8Array) (data : list byte) (nread : N) :
  byteLength buffer ≠ 0%N →
  backend _ (fs_read (FileHandle.rid h) (byteLength buffer)) s = (Resolved (data, nread), s') →
  length data ≤ length buffer →
  ∃ result : option N,
    run backend (FileHandle.read h buffer) s
    = (Fulfilled (result, data ++ drop (length data) buffer), s',
       [call (fs_read (FileHandle.rid h) (byteLength buffer))])
    ∧ (result = None ↔ nread = 0%N)
    ∧ (nread ≠ 0%N → result = Some nread ∧ (0 < nread)%N)
    ∧ result ≠ Some 0%N.
Proof.
  intros Hne Hreply Hfit.
  exists (if decide (nread = 0%N) then None else Some nread).
  split.
  - unfold FileHandle.read.
    destruct (decide (byteLength buffer = 0%N)) as [Heq|_]; [contradiction|].
    rewrite run_bind, run_invoke, Hreply. simpl.
    unfold Uint8Array_set.
    destruct (decide (length data ≤ length buffer)) as [_|Hbad]; [|contradiction].
    reflexivity.
  - destruct (decide (nread = 0%N)) as [Hz|Hnz].
    + repeat split; try done.
    + repeat split; try done; try lia. congruence.
Qed.

Lemma read_eof_exactly_when_exhausted_witness :
  ∃ result : option N,
    run demo_core (FileHandle.read (FileHandle.new 1) ["a"%byte; "b"%byte; "c"%byte]) demo_state
    = (Fulfilled (result, ["a"%byte; "b"%byte; "c"%byte]),
       (demo_core _ (fs_read 1 3) demo_state).2, [call (fs_read 1 3)])
    ∧ (result = None ↔ 0%N = 0%N)
    ∧ (0%N ≠ 0%N → result = Some 0%N ∧ (0 < 0)%N)
    ∧ result ≠ Some 0%N.
Proof.
  apply (read_eof_exactly_when_exhausted demo_core demo_state
           (demo_core _ (fs_read 1 3) demo_state).2
           (FileHandle.new 1) ["a"%byte; "b"%byte; "c"%byte] [] 0%N).
  - discriminate.
  - reflexivity.
  - simpl. lia.
Defined.

(** ** Options of the watch functions *)

Lemma lookup_spread (base : JsObject) (options : Options) (key : string) :
  spread base options !! key =
  match options with
  | Some o => match o !! key with Some v => Some v | None => base !! key end
  | None => base !! key
  end.
Proof.
  destruct options as [o|]; simpl; [|done].
  rewrite lookup_union. destruct (o !! key), (base !! key); done.
Qed.

(** C9, amended. When no path is a URL of another scheme, [watch] and
    [watchImmediate] make one [plugin:fs|watch] call whose [options] are
    [watch_opts options] and [watchImmediate_opts options]. [watch] sends the
    caller's own [delayMs] property when the options have one, whatever its
    value, and 2000 otherwise; [watchImmediate] always sends [null],
    whatever the caller gives. Both send the caller's own [recursive]
    property when the options have one, and [false] otherwise. *)
Theorem watch_option_defaults (paths : WatchPaths) (cb : Callback) (options : Options) :
  (∀ p, p ∈ to_watchPaths paths → is_non_file_url p = false) →
  watch paths cb options
    = (rid ← invoke (fs_watch (path_to_string <$> to_watchPaths paths)
                              (watch_opts options) (mkChannel cb));
       Ret (void (unwatch rid)))
  ∧ watchImmediate paths cb options
    = (rid ← invoke (fs_watch (path_to_string <$> to_watchPaths paths)
                              (watchImmediate_opts options) (mkChannel cb));
       Ret (void (unwatch rid)))
  ∧ watch_opts options !! "delayMs"
    = Some (default (VNum 2000) (own_property "delayMs" options))
  ∧ watchImmediate_opts options !! "delayMs" = Some VNull
  ∧ watch_opts options !! "recursive"
    = Some (default (VBool false) (own_property "recursive" options))
  ∧ watchImmediate_opts options !! "recursive"
    = Some (default (VBool false) (own_property "recursive" options)).
Proof.
  intros Hok. split; [|split; [|split; [|split; [|split]]]].
  - unfold watch. by rewrite (check_file_urls_passes _ Hok).
  - unfold watchImmediate. by rewrite (check_file_urls_passes _ Hok).
  - unfold watch_opts. rewrite lookup_spread.
    destruct options as [o|]; simpl; [|done]. by destruct (o !! "delayMs").
  - unfold watchImmediate_opts. by rewrite lookup_insert_eq.
  - unfold watch_opts. rewrite lookup_spread.
    destruct options as [o|]; simpl; [|done]. by destruct (o !! "recursive").
  - unfold watchImmediate_opts. rewrite lookup_insert_ne by done. rewrite lookup_spread.
    destruct options as [o|]; simpl; [|done]. by destruct (o !! "recursive").
Qed.

Lemma watch_option_defaults_witness :
  watch_opts (Some {[ "recursive" := VBool true ]}) !! "delayMs" = Some (VNum 2000)
  ∧ watchImmediate_opts (Some {[ "delayMs" := VNum 500 ]}) !! "delayMs" = Some VNull
  ∧ watchImmediate_opts (Some {[ "recursive" := VBool true ]}) !! "recursive"
    = Some (VBool true).
Proof.
  assert (∀ p, p ∈ to_watchPaths (OnePath (PathStr "logs")) → is_non_file_url p = false)
    as Hok by (intros p Hp; apply list_elem_of_singleton in Hp as ->; reflexivity).
  split; [|split].
  - pose proof (watch_option_defaults (OnePath (PathStr "logs")) (CallbackRef 1)
                  (Some {[ "recursive" := VBool true ]}) Hok) as (_ & _ & H & _).
    exact H.
  - pose proof (watch_option_defaults (OnePath (PathStr "logs")) (CallbackRef 1)
                  (Some {[ "delayMs" := VNum 500 ]}) Hok) as (_ & _ & _ & H & _).
    exact H.
  - pose proof (watch_option_defaults (OnePath (PathStr "logs")) (CallbackRef 1)
                  (Some {[ "recursive" := VBool true ]}) Hok) as (_ & _ & _ & _ & _ & H).
    exact H.
Defined.

(** C9 as stated fails for the caller of [watch(paths, cb, { delayMs:
    undefined })]. Reading [delayMs] from these options gives [undefined],
    the same as for no options at all, so the caller supplies no delay; yet
    the spread copies the own property over the default and the one
    [plugin:fs|watch] call carries [delayMs: undefined], not 2000. The same
    holds of [recursive] in both functions. *)
Lemma undefined_option_is_not_defaulted :
  let options : Options := Some {[ "delayMs" := VUndefined; "recursive" := VUndefined ]} in
  read_property "delayMs" options = read_property "delayMs" None
  ∧ read_property "recursive" options = read_property "recursive" None
  ∧ watch (OnePath (PathStr "logs")) (CallbackRef 1) options
    = (rid ← invoke (fs_watch ["logs"] (watch_opts options) (mkChannel (CallbackRef 1)));
       Ret (void (unwatch rid)))
  ∧ watch_opts options !! "delayMs" = Some VUndefined
  ∧ watch_opts options !! "delayMs" ≠ Some (VNum 2000)
  ∧ watch_opts options !! "recursive" ≠ Some (VBool false)
  ∧ watchImmediate_opts options !! "recursive" ≠ Some (VBool false).
Proof.
  cbv zeta. unfold watch_opts, watchImmediate_opts.
  rewrite lookup_insert_ne by done. rewrite !lookup_spread.
  rewrite lookup_insert_eq, lookup_insert_ne, lookup_singleton_eq by done.
  repeat split; done.
Qed.

(** ** The core *)

Lemma validate_kinds (p : string) (e : ErrorKind) :
  validate p = Some e → e = PathTraversal ∨ e = InvalidPath.
Proof.
  unfold validate. repeat case_match; intros [= <-]; auto.
Qed.

Lemma validate_violation (p : string) : violates p → is_Some (validate p).
Proof.
  unfold validate. intros [H|H]; rewrite H; [eauto|]. case_match; eauto.
Qed.

Lemma SeekMode_codes (code : Z) :
  (∃ name, SeekMode !! name = Some (VNum code)) ↔ is_Some (whence_of_code code).
Proof.
  unfold whence_of_code, SeekMode. split.
  - intros [name H].
    repeat (apply lookup_insert_Some in H as [[_ H]|[_ H]];
            [try discriminate; injection H as <-; simpl; eauto|]).
    by rewrite lookup_empty in H.
  - intros H. repeat case_decide; subst.
    + by exists "Start".
    + by exists "Current".
    + by exists "End".
    + by destruct H.
Qed.

Lemma watch_resolves_to_unwatch {S} (backend : Handler S) (b : S)
    (paths : WatchPaths) (cb : Callback) (options : Options) (f : UnwatchFn) :
  outcome (run backend (watch paths cb options) b) = Fulfilled f →
  ∃ rid, f = void (unwatch rid).
Proof.
  unfold watch, outcome.
  destruct (check_file_urls_cases (to_watchPaths paths)) as [-> | ->]; [done|].
  rewrite bind_Ret, run_bind, run_invoke.
  destruct (backend _ _ b) as [[rid|e] b']; simpl; [|done].
  intros [= <-]. eauto.
Qed.

Lemma next_line_fulfilled {S} (backend : Handler S) (it : LinesIterator) (rid : N) (b : S) :
  ∃ r it' b' log, run backend (next_line it rid) b = (Fulfilled (r, it'), b', log).
Proof.
  unfold next_line. cbn [run].
  destruct (backend _ (fs_read_text_file_lines_next rid) b) as [[[line d]|e] b']; simpl; eauto.
Qed.

Lemma iterate_S {S} (backend : Handler S) (n : nat) (it : LinesIterator) (b : S) :
  iterate backend (Datatypes.S n) it b =
  let '(r, it', b') := call_next backend it b in
  let '(rs, it'', b'') := iterate backend n it' b' in
  (r :: rs, it'', b'').
Proof. reflexivity. Qed.

Lemma iterate_add {S} (backend : Handler S) (n m : nat) (it : LinesIterator) (b : S) :
  iterate backend (n + m) it b =
  let '(rs, it', b') := iterate backend n it b in
  let '(rs', it'', b'') := iterate backend m it' b' in
  (rs ++ rs', it'', b'').
Proof.
  revert it b. induction n as [|n IH]; intros it b; simpl.
  - by destruct (iterate backend m it b) as [[rs' it''] b''].
  - destruct (call_next backend it b) as [[r it1] b1]. rewrite IH.
    destruct (iterate backend n it1 b1) as [[rs it2] b2].
    by destruct (iterate backend m it2 b2) as [[rs' it3] b3].
Qed.

Section MediatorFacts.

Context {Os Pattern : Type}.
Variable os_exec : ∀ R, OsCall R → Os → Reply R * Os.
Variable base_directory : option Z → option string.
Variable matches : Pattern → string → bool.
Variable allow deny : string → list Pattern.
Variable coalesce : list ChangeEvent → list ChangeEvent.

#[local] Abbreviation the_core := (core os_exec base_directory matches allow deny).
#[local] Abbreviation the_vet := (vet base_directory matches allow deny).
#[local] Abbreviation the_resolve := (resolve base_directory).
#[local] Abbreviation the_authorize := (authorize matches allow deny).
#[local] Abbreviation the_unwatch := (core_unwatch os_exec).
#[local] Abbreviation step := (manager_step os_exec coalesce).
#[local] Abbreviation rejected :=
  (unacceptable base_directory matches allow deny).

(** *** Vetting of paths *)

Lemma first_invalid_kinds (ps : list string) (e : ErrorKind) :
  first_invalid ps = Some e → e = PathTraversal ∨ e = InvalidPath.
Proof.
  induction ps as [|p ps IH]; simpl; [done|].
  destruct (validate p) as [e'|] eqn:E; [|done].
  intros [= <-]. by eapply validate_kinds.
Qed.

Lemma first_invalid_violation (ps : list string) (p : string) :
  p ∈ ps → violates p → is_Some (first_invalid ps).
Proof.
  induction 1 as [p ps|p q ps Hin IH]; intros Hp; simpl.
  - destruct (validate_violation p Hp) as [e ->]. eauto.
  - destruct (validate q); eauto.
Qed.

Lemma vet_violation (cls : string) (paths : list (string * option Z)) (p : string) :
  p ∈ paths.*1 → violates p →
  ∃ e, the_vet cls paths = inl e ∧ (e = PathTraversal ∨ e = InvalidPath).
Proof.
  intros Hin Hp. unfold vet.
  destruct (first_invalid_violation _ _ Hin Hp) as [e He].
  rewrite He. eauto using first_invalid_kinds.
Qed.

Lemma resolve_inr_validate (p : string) (b : option Z) (rp : string) :
  the_resolve p b = inr rp → validate p = None.
Proof. unfold resolve. by destruct (validate p). Qed.

Lemma resolve_each_inr (paths : list (string * option Z)) (rps : list string) :
  resolve_each base_directory paths = inr rps →
  Forall2 (λ pb rp, the_resolve pb.1 pb.2 = inr rp) paths rps.
Proof.
  revert rps. induction paths as [|[p b] paths IH]; intros rps; simpl.
  - intros [= <-]. constructor.
  - destruct (the_resolve p b) as [e|rp] eqn:E; [done|].
    destruct (resolve_each base_directory paths) as [e|rps'] eqn:E'; [done|].
    intros [= <-]. constructor; auto.
Qed.

Lemma vet_inr (cls : string) (paths : list (string * option Z)) (rps : list string) :
  the_vet cls paths = inr rps →
  Forall2 (λ pb rp, the_resolve pb.1 pb.2 = inr rp ∧ the_authorize rp cls = true) paths rps.
Proof.
  unfold vet. destruct (first_invalid paths.*1); [done|].
  destruct (resolve_each base_directory paths) as [e|rps'] eqn:E; [done|].
  destruct (forallb _ rps') eqn:Hall; [|done]. intros [= <-].
  apply resolve_each_inr in E.
  rewrite forallb_forall in Hall.
  induction E as [|pb rp paths rps' Hr E IH]; constructor.
  - split; [done|]. apply Hall. by left.
  - apply IH. intros rp' Hin. apply Hall. by right.
Qed.

Lemma vet_one_resolved (cls : string) (p : string) (b : option Z) (rp : string) :
  the_resolve p b = inr rp → the_authorize rp cls = true →
  the_vet cls [(p, b)] = inr [rp].
Proof.
  intros H Ha. unfold vet. simpl.
  rewrite (resolve_inr_validate _ _ _ H), H. simpl. by rewrite Ha.
Qed.

Lemma vet_two (cls : string) (p1 p2 : string) (b1 b2 : option Z) :
  (∃ e, the_vet cls [(p1, b1); (p2, b2)] = inl e)
  ∨ (∃ rp1 rp2, the_vet cls [(p1, b1); (p2, b2)] = inr [rp1; rp2]
       ∧ the_resolve p1 b1 = inr rp1 ∧ the_authorize rp1 cls = true
       ∧ the_resolve p2 b2 = inr rp2 ∧ the_authorize rp2 cls = true).
Proof.
  destruct (the_vet cls [(p1, b1); (p2, b2)]) as [e|rps] eqn:E; [eauto|right].
  pose proof (vet_inr _ _ _ E) as H.
  inversion H as [|? rp1 ? rps1 [Hr1 Ha1] H1]; subst.
  inversion H1 as [|? rp2 ? rps2 [Hr2 Ha2] H2]; subst.
  inversion H2; subst. eauto 10.
Qed.

Lemma vet_two_resolved (cls : string) (p1 p2 : string) (b1 b2 : option Z)
    (rp1 rp2 : string) :
  the_resolve p1 b1 = inr rp1 → the_authorize rp1 cls = true →
  the_resolve p2 b2 = inr rp2 →
  the_vet cls [(p1, b1); (p2, b2)]
  = if the_authorize rp2 cls then inr [rp1; rp2] else inl ScopeViolation.
Proof.
  intros H1 Ha1 H2. unfold vet. simpl.
  rewrite (resolve_inr_validate _ _ _ H1), (resolve_inr_validate _ _ _ H2), H1, H2.
  simpl. rewrite Ha1. simpl. by rewrite andb_true_r.
Qed.

Lemma core_rejects_violation {R} (c : Cmd R) (p : string) (s : Core Os) :
  p ∈ cmd_paths c → violates p →
  ∃ e, the_core R c s = (Rejected e, s) ∧ (e = PathTraversal ∨ e = InvalidPath).
Proof.
  intros Hin Hp.
  destruct c; simpl in Hin; try (by apply elem_of_nil in Hin);
    simpl; unfold on_path, on_two_paths, core_watch;
    match goal with
    | |- context [vet _ _ _ _ ?cls ?paths] =>
        destruct (vet_violation cls paths p) as (e & -> & He); [|done|by eauto]
    end; simpl; try done.
  rewrite <- list_fmap_compose. by rewrite list_fmap_id.
Qed.

Lemma on_two_paths_unacceptable {R} (cls : string) (p1 p2 : PathArg) (b1 b2 : option Z)
    (primitive : string → string → Core Os → Reply R * Core Os) (s : Core Os) :
  is_non_file_url p1 = false → is_non_file_url p2 = false →
  rejected cls p1 b1 ∨ rejected cls p2 b2 →
  ∃ e, on_two_paths base_directory matches allow deny cls
         (path_to_string p1) b1 (path_to_string p2) b2 primitive s = (Rejected e, s).
Proof.
  intros Hu1 Hu2 Hbad. unfold on_two_paths.
  destruct (vet_two cls (path_to_string p1) (path_to_string p2) b1 b2)
    as [[e ->]|(rp1 & rp2 & -> & Hr1 & Ha1 & Hr2 & Ha2)]; [eauto|].
  exfalso. destruct Hbad as [[H|[[e H]|(rp & H & Hd)]]|[H|[[e H]|(rp & H & Hd)]]];
    congruence.
Qed.

(** *** Traversal *)

(** C1. For every operation that accepts a path and every path argument
    of it whose string has a [..] segment or is absolute: resolution of
    that string fails with [PathTraversal] or [InvalidPath] whatever the
    base directory, and the operation run against the core is rejected
    with an invalid-path error and leaves the whole state of the core as
    it was: no OS call is logged, nothing is registered, the OS state is
    the same. (The core is modelled from the specification.) *)
Theorem traversal_rejected_before_io (op : PathOperation) (p : PathArg) (s : Core Os) :
  p ∈ path_arguments op → violates (path_to_string p) →
  (∀ base, ∃ e, the_resolve (path_to_string p) base = inl e
                ∧ (e = PathTraversal ∨ e = InvalidPath))
  ∧ ∃ e, outcome (run the_core (perform op) s) = Failed e
         ∧ invalid_path_error e
         ∧ final (run the_core (perform op) s) = s.
Proof.
  intros Hin Hp. split.
  { intros base. unfold resolve.
    destruct (validate_violation _ Hp) as [e He]. rewrite He.
    eauto using validate_kinds. }
  assert (Hwire : path_to_string p ∈ path_to_string <$> path_arguments op)
    by (by apply list_elem_of_fmap_2).
  assert (Hrej : ∀ R (c : Cmd R), cmd_paths c = path_to_string <$> path_arguments op →
            ∃ e, the_core R c s = (Rejected e, s) ∧ invalid_path_error (InvokeError e)).
  { intros R c Hc. destruct (core_rejects_violation c (path_to_string p) s) as (e & He & Hk).
    - by rewrite Hc.
    - done.
    - exists e. split; [done|]. unfold invalid_path_error. destruct Hk as [->| ->]; auto. }
  assert (Hthrow : ∃ e, outcome (run the_core (Throw must_be_file_url : Prog unit) s) = Failed e
                        ∧ invalid_path_error e
                        ∧ final (run the_core (Throw must_be_file_url : Prog unit) s) = s).
  { eexists. split; [reflexivity|]. split; [|reflexivity]. unfold invalid_path_error. auto. }
  destruct op; cbn [path_arguments] in Hrej; unfold perform.
  all: unfold create, open, copyFile, mkdir, readDir, readFile, readTextFile,
         readTextFileLines, remove, rename, stat, lstat, truncate, writeFile,
         writeTextFile, exists_, watch, watchImmediate.
  all: try match goal with
       | |- context [if ?g then Throw _ else _] => destruct g; [exact Hthrow|]
       end.
  all: try match goal with
       | |- context [check_file_urls ?ps] =>
           destruct (check_file_urls_cases ps) as [-> | ->];
           [exact Hthrow|rewrite bind_Ret]
       end.
  all: try match goal with
       | |- context [invoke ?c] =>
           destruct (Hrej _ c eq_refl) as (e & He & Hk);
           exists (InvokeError e); unfold outcome, final;
           rewrite ?run_bind, run_invoke, He; simpl; by auto
       end.
  destruct (Hrej _ (fs_read_text_file_lines (path_to_string path) options) eq_refl)
    as (e & He & Hk).
  exists (InvokeError e). unfold outcome, final.
  simpl in He |- *. rewrite He. simpl. auto.
Qed.

(** *** Operations on two paths *)

Ltac settle_two_paths Hbad :=
  match goal with
  | |- context [is_non_file_url ?a || is_non_file_url ?b] =>
      let Ha := fresh "Ha" in
      let Hb := fresh "Hb" in
      destruct (is_non_file_url a) eqn:Ha; [simpl; eauto|];
      destruct (is_non_file_url b) eqn:Hb; [simpl; eauto|];
      simpl orb; cbv iota; rewrite run_invoke; cbn [core];
      match goal with
      | |- context [on_two_paths _ _ _ _ ?cls _ ?b1 _ ?b2 ?prim ?s] =>
          let e := fresh "e" in
          destruct (on_two_paths_unacceptable cls a b b1 b2 prim s Ha Hb Hbad) as [e ->];
          simpl; eauto
      end
  end.

(** C3. For every pair of paths given to [copyFile] or [rename]: if either
    one is a URL of another scheme, does not resolve, or resolves to a
    path the scope denies, the operation fails and leaves the whole state
    of the core, the OS state and the log of OS calls included, as it was;
    with an acceptable source, [copyFile] reaches the OS, with one call on
    the two resolved paths, only when the destination is authorized, and
    fails with [ScopeViolation] and no change otherwise. (The core is
    modelled from the specification.) *)
Theorem two_path_operations_validate_first
    (fromPath toPath : PathArg) (options : Options) (s : Core Os) :
  let copy := run the_core (copyFile fromPath toPath options) s in
  let move := run the_core (rename fromPath toPath options) s in
  (rejected "plugin:fs|copy_file" fromPath (base_of "fromPathBaseDir" options)
   ∨ rejected "plugin:fs|copy_file" toPath (base_of "toPathBaseDir" options) →
   (∃ e, outcome copy = Failed e) ∧ final copy = s)
  ∧ (rejected "plugin:fs|rename" fromPath (base_of "oldPathBaseDir" options)
     ∨ rejected "plugin:fs|rename" toPath (base_of "newPathBaseDir" options) →
     (∃ e, outcome move = Failed e) ∧ final move = s)
  ∧ (∀ rf rt,
       is_non_file_url fromPath = false → is_non_file_url toPath = false →
       the_resolve (path_to_string fromPath) (base_of "fromPathBaseDir" options) = inr rf →
       the_authorize rf "plugin:fs|copy_file" = true →
       the_resolve (path_to_string toPath) (base_of "toPathBaseDir" options) = inr rt →
       (if the_authorize rt "plugin:fs|copy_file"
        then os_log (final copy)
             = os_log s ++ [performed (os_path_op (fs_copy_file rf rt options))]
        else outcome copy = Failed (InvokeError ScopeViolation) ∧ final copy = s)).
Proof.
  cbv zeta. unfold copyFile, rename, outcome, final.
  split; [|split].
  - intros Hbad. split; settle_two_paths Hbad.
  - intros Hbad. split; settle_two_paths Hbad.
  - intros rf rt Hf Ht Hrf Haf Hrt. rewrite Hf, Ht. simpl orb. cbv iota.
    rewrite run_invoke. cbn [core]. unfold on_two_paths.
    rewrite (vet_two_resolved _ _ _ _ _ _ _ Hrf Haf Hrt).
    destruct (the_authorize rt "plugin:fs|copy_file"); [|done].
    unfold os_call. simpl.
    by destruct (os_exec _ (os_path_op (fs_copy_file rf rt options)) (os s)) as [[[]|e] os'].
Qed.

(** *** Seeking *)

(** C6. For every open file handle: the client's [SeekMode] encodes
    Start, Current and End as 0, 1 and 2 and no other number; a [seek]
    whose whence is one of these aims at the offset counted from the start
    of the file, from the current position, or from the size the OS
    reports for the file; it fails, with the registry unchanged, when that
    absolute offset is negative, and otherwise resolves to it and makes it
    the position of the handle; a [seek] with any other whence fails and
    changes nothing. (The registry is modelled from the specification.) *)
Theorem seek_whence_and_offset (h : FileHandle.t) (offset whence : Z) (s : Core Os)
    (fd cursor : N) :
  handles s !! FileHandle.rid h = Some (OpenFile fd cursor) →
  let r := run the_core (FileHandle.seek h offset whence) s in
  (SeekMode !! "Start" = Some (VNum 0) ∧ SeekMode !! "Current" = Some (VNum 1)
   ∧ SeekMode !! "End" = Some (VNum 2)
   ∧ ∀ code, (∃ name, SeekMode !! name = Some (VNum code)) ↔ (0 ≤ code ≤ 2)%Z)
  ∧ (whence = 0%Z → lands_at s r (FileHandle.rid h) fd offset)
  ∧ (whence = 1%Z → lands_at s r (FileHandle.rid h) fd (Z.of_N cursor + offset))
  ∧ (whence = 2%Z →
     ∀ size os', os_exec N (os_fsize fd) (os s) = (Resolved size, os') →
                 lands_at s r (FileHandle.rid h) fd (Z.of_N size + offset))
  ∧ (¬ (0 ≤ whence ≤ 2)%Z → outcome r = Failed (InvokeError (IOError "seek")) ∧ final r = s).
Proof.
  intros Hh r. subst r. unfold FileHandle.seek, lands_at, outcome, final.
  rewrite run_invoke. cbn [core]. unfold core_seek. rewrite Hh.
  split; [|split; [|split; [|split]]].
  - split; [done|]. split; [done|]. split; [done|]. intros code.
    rewrite SeekMode_codes. unfold whence_of_code.
    repeat case_decide; subst; split; intros Hc; try done; try lia; by destruct Hc.
  - intros ->. simpl. rewrite !Z.add_0_l.
    destruct (decide (offset < 0)%Z); simpl; [done|].
    split; [done|]. by rewrite lookup_insert_eq.
  - intros ->. simpl. destruct (decide (Z.of_N cursor + offset < 0)%Z); simpl; [done|].
    split; [done|]. by rewrite lookup_insert_eq.
  - intros -> size os' Hsize. simpl. unfold os_call. rewrite Hsize. simpl.
    destruct (decide (Z.of_N size + offset < 0)%Z); simpl; [done|].
    split; [done|]. by rewrite lookup_insert_eq.
  - intros Hw. unfold whence_of_code. repeat case_decide; subst; try lia. done.
Qed.

(** *** Stopping a watch *)

Lemma unsubscribe_all_sessions (subs : list N) (s : Core Os) :
  sessions (unsubscribe_all os_exec subs s) = sessions s
  ∧ emitted (unsubscribe_all os_exec subs s) = emitted s.
Proof.
  revert s. induction subs as [|sub subs IH]; intros s; simpl; [done|].
  destruct (IH (os_call os_exec (os_unsubscribe sub) s).2) as [-> ->].
  unfold os_call. by destruct (os_exec _ _ (os s)).
Qed.

Lemma unwatch_resolves (sid : N) (s : Core Os) : (the_unwatch sid s).1 = Resolved tt.
Proof.
  unfold core_unwatch. destruct (sessions s !! sid) as [w|]; [|done].
  by destruct (session_state w).
Qed.

Lemma unwatch_emitted (sid : N) (s : Core Os) :
  emitted (the_unwatch sid s).2 = emitted s.
Proof.
  unfold core_unwatch. destruct (sessions s !! sid) as [w|]; [|done].
  destruct (session_state w); simpl; try done; apply unsubscribe_all_sessions.
Qed.

Lemma unwatch_quiet (sid : N) (s : Core Os) : quiet sid (the_unwatch sid s).2.
Proof.
  unfold core_unwatch, quiet. destruct (sessions s !! sid) as [w|] eqn:E.
  - destruct (session_state w) eqn:Ew; simpl; rewrite ?lookup_insert_eq, ?E, ?Ew; done.
  - simpl. by rewrite E.
Qed.

Lemma unwatch_keeps_quiet (sid sid' : N) (s : Core Os) :
  quiet sid s → quiet sid (the_unwatch sid' s).2.
Proof.
  intros Hq. destruct (decide (sid' = sid)) as [->|Hne]; [apply unwatch_quiet|].
  revert Hq. unfold core_unwatch, quiet.
  destruct (sessions s !! sid') as [w'|]; [|done].
  destruct (session_state w'); simpl; try done;
  rewrite lookup_insert_ne by done;
  by destruct (unsubscribe_all_sessions (session_subscriptions w') s) as [-> _].
Qed.

Lemma emit_batch_other (sid sid' : N) (batch : list ChangeEvent) (s : Core Os) :
  sid' ≠ sid →
  sessions (emit_batch sid' batch s) = sessions s
  ∧ events_on sid (emit_batch sid' batch s) = events_on sid s.
Proof.
  intros Hne. destruct batch; simpl; [done|]. split; [done|].
  unfold events_on. simpl. by rewrite filter_cons_False.
Qed.

Lemma active_not_quiet (sid : N) (s : Core Os) (w : WatchSession) :
  sessions s !! sid = Some w → is_active w = true → ¬ quiet sid s.
Proof.
  intros E Ea Hq. unfold quiet in Hq. rewrite E in Hq. unfold is_active in Ea.
  by destruct (session_state w).
Qed.

(** A session that is not active stays so, and nothing is emitted on it. *)
Lemma step_quiet (sid : N) (s : Core Os) (msg : WatcherMsg) :
  quiet sid s → quiet sid (step s msg) ∧ events_on sid (step s msg) = events_on sid s.
Proof.
  intros Hq. destruct msg as [sid' event|sid'|sid']; simpl.
  - destruct (sessions s !! sid') as [w|] eqn:E; [|done].
    destruct (is_active w) eqn:Ea; [|done].
    assert (sid' ≠ sid) as Hne by (intros ->; by eapply active_not_quiet).
    case_decide.
    + destruct (emit_batch_other sid sid' (coalesce [event]) s Hne) as [Hs He].
      split; [|done]. unfold quiet. by rewrite Hs.
    + split; [|done]. unfold quiet. simpl. by rewrite lookup_insert_ne.
  - destruct (sessions s !! sid') as [w|] eqn:E; [|done].
    destruct (is_active w) eqn:Ea; [|done].
    assert (sid' ≠ sid) as Hne by (intros ->; by eapply active_not_quiet).
    destruct (emit_batch_other sid sid' (coalesce (session_buffer w))
                (set_sessions (<[sid' := with_buffer [] w]> (sessions s)) s) Hne) as [Hs He].
    split; [|done]. unfold quiet. rewrite Hs. simpl. by rewrite lookup_insert_ne.
  - split; [by apply unwatch_keeps_quiet|]. unfold events_on. by rewrite unwatch_emitted.
Qed.

Lemma steps_quiet (sid : N) (msgs : list WatcherMsg) (s : Core Os) :
  quiet sid s → events_on sid (foldl step s msgs) = events_on sid s.
Proof.
  revert s. induction msgs as [|msg msgs IH]; intros s Hq; simpl; [done|].
  destruct (step_quiet sid s msg Hq) as [Hq' He]. by rewrite IH.
Qed.

(** C7. For every session identifier [rid], the stop function
    [() => { void unwatch(rid); }], which is the function every successful
    [watch] resolves to: whatever a backend answers, calling it surfaces
    no error; the core answers every [unwatch] with success; when the
    session is unknown or already stopped the call changes nothing, and a
    second call after a first changes nothing; and after the call, no
    sequence of raw events, timer fires and stop requests makes the core
    emit a batch on that session. (The watcher manager is modelled from
    the specification.) *)
Theorem unwatch_idempotent_and_final (rid : N) (s : Core Os) (msgs : list WatcherMsg) :
  let stop := void (unwatch rid) in
  let after := final (run the_core stop s) in
  (∀ S (backend : Handler S) (b : S), outcome (run backend stop b) = Fulfilled tt)
  ∧ (∀ S (backend : Handler S) (b : S) paths cb options f,
       outcome (run backend (watch paths cb options) b) = Fulfilled f →
       ∃ rid', f = void (unwatch rid'))
  ∧ (∀ sid, (the_core _ (fs_unwatch sid) s).1 = Resolved tt)
  ∧ (sessions s !! rid = None
     ∨ (∃ w, sessions s !! rid = Some w ∧ session_state w = Stopped) →
     run the_core stop s = (Fulfilled tt, s, [call (fs_unwatch rid)]))
  ∧ run the_core stop after = (Fulfilled tt, after, [call (fs_unwatch rid)])
  ∧ events_on rid after = events_on rid s
  ∧ events_on rid (foldl step after msgs) = events_on rid s.
Proof.
  cbv zeta. unfold final. rewrite run_void_unwatch. cbn [core snd fst].
  assert (Hstopped : ∀ s0 : Core Os,
            sessions s0 !! rid = None
            ∨ (∃ w, sessions s0 !! rid = Some w ∧ session_state w = Stopped) →
            the_unwatch rid s0 = (Resolved tt, s0)).
  { intros s0 H. unfold core_unwatch. destruct H as [->|(w & -> & ->)]; done. }
  split; [|split; [|split; [|split; [|split; [|split]]]]].
  - intros S backend b. unfold outcome. by rewrite run_void_unwatch.
  - intros S backend b paths cb options f. apply watch_resolves_to_unwatch.
  - intros sid. apply unwatch_resolves.
  - intros H. by rewrite (Hstopped s H).
  - rewrite run_void_unwatch. cbn [core]. rewrite Hstopped; [done|].
    unfold core_unwatch. destruct (sessions s !! rid) as [w|] eqn:E; simpl.
    + destruct (session_state w) eqn:Ew; simpl; rewrite ?lookup_insert_eq; eauto.
    + by left.
  - unfold events_on. by rewrite unwatch_emitted.
  - rewrite steps_quiet by apply unwatch_quiet.
    unfold events_on. by rewrite unwatch_emitted.
Qed.

(** *** Reading a file line by line *)

(** With a reader open, as many [next()] calls as there are pending lines
    yield them in order, and one more reports the end and resets [rid]. *)
Lemma drain (pending : list string) (it : LinesIterator) (rid : N) (s : Core Os) :
  lines_rid it = Some rid → handles s !! rid = Some (LineReader pending) →
  ∃ s', iterate the_core (S (length pending)) it s
        = ((yielded <$> pending) ++ [finished], set_rid None it, s')
        ∧ os s' = os s.
Proof.
  revert s. induction pending as [|line rest IH]; intros s Hrid Hh.
  - simpl. unfold call_next, next, next_line. rewrite Hrid. simpl.
    unfold core_lines_next, release. rewrite Hh. simpl. eauto.
  - change (length (line :: rest)) with (S (length rest)).
    rewrite iterate_S. unfold call_next at 1. unfold next, next_line. rewrite Hrid.
    cbn [run core]. unfold core_lines_next. rewrite Hh. cbn [run].
    edestruct (IH (set_handles (<[rid := LineReader rest]> (handles s)) s)) as (s' & -> & Hos);
      [done|by simpl; rewrite lookup_insert_eq|].
    eauto.
Qed.

(** The first [next()] opens the file and then behaves as a [next()] on
    the opened reader. *)
Lemma call_next_fresh (p : string) (options : Options) (s : Core Os) (rp text : string) :
  the_resolve p (base_of "baseDir" options) = inr rp →
  the_authorize rp "plugin:fs|read_text_file_lines" = true →
  os_exec _ (os_path_op (fs_read_text_file rp options)) (os s) = (Resolved text, os s) →
  ∃ s1, call_next the_core (mkLinesIterator p options None) s
        = call_next the_core (mkLinesIterator p options (Some (next_handle s))) s1
        ∧ handles s1 !! next_handle s = Some (LineReader (text_lines text))
        ∧ os s1 = os s.
Proof.
  intros Hres Hauth Hread. unfold call_next at 1. unfold next.
  cbn [lines_rid run core lines_path lines_options]. unfold on_path.
  rewrite (vet_one_resolved _ _ _ _ Hres Hauth). unfold open_lines, os_call.
  rewrite Hread. cbn [register set_rid lines_path lines_options].
  exists (mkCore (os s)
            (os_log s ++ [performed (os_path_op (fs_read_text_file rp options))])
            (<[next_handle s := LineReader (text_lines text)]> (handles s))
            (N.succ (next_handle s)) (sessions s) (next_session s) (emitted s)).
  split; [|split].
  - unfold call_next, next. cbn [lines_rid os os_log handles next_handle sessions
                                 next_session emitted].
    unfold set_rid. cbn [lines_path lines_options].
    match goal with
    | |- context [run ?h (next_line ?it ?rid) ?b] =>
        destruct (next_line_fulfilled h it rid b) as (r & it' & b' & log & ->)
    end.
    reflexivity.
  - simpl. by rewrite lookup_insert_eq.
  - reflexivity.
Qed.

(** C10. [readTextFileLines] resolves to an iterator with [rid] null
    without any call to the backend; a [next()] on it starts by opening
    the file, while a [next()] on an iterator that holds a [rid] starts by
    asking that reader for a line; when the backend reports [done], the
    call yields the empty string with [done] and leaves the iterator as it
    was at the start, [rid] null. Against the core, on an authorized file
    whose text the OS returns, a first round of [next()] calls yields the
    lines in order and then the end, and the same number of calls again
    yields the same lines from the first one. (The line reader of the core
    is modelled from the specification.) *)
Theorem lines_iterator_lazy_and_restartable (path : PathArg) (options : Options)
    (s : Core Os) (rp text : string) :
  is_non_file_url path = false →
  the_resolve (path_to_string path) (base_of "baseDir" options) = inr rp →
  the_authorize rp "plugin:fs|read_text_file_lines" = true →
  os_exec _ (os_path_op (fs_read_text_file rp options)) (os s) = (Resolved text, os s) →
  let it := mkLinesIterator (path_to_string path) options None in
  let pass := (yielded <$> text_lines text) ++ [finished] in
  (∀ S (backend : Handler S) (b : S),
     run backend (readTextFileLines path options) b = (Fulfilled it, b, []))
  ∧ (∃ k, next it = Invoke (fs_read_text_file_lines (path_to_string path) options) k)
  ∧ (∀ rid, ∃ k, next (set_rid (Some rid) it) = Invoke (fs_read_text_file_lines_next rid) k)
  ∧ (∀ S (backend : Handler S) (b b' : S) (rid : N) (line : string),
       backend _ (fs_read_text_file_lines_next rid) b = (Resolved (line, true), b') →
       call_next backend (set_rid (Some rid) it) b = (finished, it, b'))
  ∧ (∃ s1, iterate the_core (S (length (text_lines text))) it s = (pass, it, s1))
  ∧ (∃ s2, iterate the_core (S (length (text_lines text)) + S (length (text_lines text))) it s
           = (pass ++ pass, it, s2)).
Proof.
  intros Hurl Hres Hauth Hread it pass.
  assert (Hpass : ∀ s0 : Core Os, os s0 = os s →
            ∃ s1, iterate the_core (S (length (text_lines text))) it s0 = (pass, it, s1)
                  ∧ os s1 = os s).
  { intros s0 Hos. rewrite <- Hos in Hread.
    destruct (call_next_fresh _ _ _ _ _ Hres Hauth Hread) as (s1 & Hnext & Hh & Hos1).
    destruct (drain (text_lines text)
                (mkLinesIterator (path_to_string path) options (Some (next_handle s0)))
                (next_handle s0) s1 eq_refl Hh) as (s2 & Hdrain & Hos2).
    exists s2. split; [|congruence].
    rewrite iterate_S. unfold it. rewrite Hnext. rewrite <- iterate_S. apply Hdrain. }
  split; [|split; [|split; [|split; [|split]]]].
  - intros S backend b. unfold readTextFileLines. by rewrite Hurl.
  - eexists. reflexivity.
  - intros rid. eexists. reflexivity.
  - intros S backend b b' rid line Hdone.
    unfold call_next, next, next_line. cbn [set_rid lines_rid run]. by rewrite Hdone.
  - destruct (Hpass s eq_refl) as (s1 & H1 & _). eauto.
  - destruct (Hpass s eq_refl) as (s1 & H1 & Hos1).
    destruct (Hpass s1 Hos1) as (s2 & H2 & _).
    exists s2. by rewrite iterate_add, H1, H2.
Qed.

End MediatorFacts.

(** ** The theorems on the small host *)

Lemma traversal_rejected_before_io_witness :
  ∃ e, outcome (run demo_core (perform (call_open (PathStr "../etc/passwd") None)) demo_state)
       = Failed e
       ∧ invalid_path_error e
       ∧ final (run demo_core (perform (call_open (PathStr "../etc/passwd") None)) demo_state)
         = demo_state.
Proof.
  apply (traversal_rejected_before_io demo_os_exec demo_base_directory demo_matches
           demo_allow demo_deny (call_open (PathStr "../etc/passwd") None)
           (PathStr "../etc/passwd") demo_state).
  - apply list_elem_of_here.
  - left. reflexivity.
Defined.

Lemma two_path_operations_validate_first_witness :
  outcome (run demo_core (copyFile (PathStr "notes.txt") (PathStr "secret/copy.txt") None)
               demo_state)
  = Failed (InvokeError ScopeViolation)
  ∧ final (run demo_core (copyFile (PathStr "notes.txt") (PathStr "secret/copy.txt") None)
               demo_state)
    = demo_state.
Proof.
  pose proof (two_path_operations_validate_first demo_os_exec demo_base_directory
                demo_matches demo_allow demo_deny
                (PathStr "notes.txt") (PathStr "secret/copy.txt") None demo_state)
    as (_ & _ & H).
  apply (H "/app/notes.txt" "/app/secret/copy.txt"); reflexivity.
Defined.

Lemma seek_whence_and_offset_witness :
  outcome (run demo_core (FileHandle.seek (FileHandle.new 1) (-2) 2) demo_state) = Fulfilled 9%N
  ∧ outcome (run demo_core (FileHandle.seek (FileHandle.new 1) (-6) 1) demo_state)
    = Failed (InvokeError (IOError "seek")).
Proof.
  pose proof (seek_whence_and_offset demo_os_exec demo_base_directory demo_matches
                demo_allow demo_deny (FileHandle.new 1) (-2) 2 demo_state 3 5
                eq_refl) as (_ & _ & _ & Hend & _).
  pose proof (seek_whence_and_offset demo_os_exec demo_base_directory demo_matches
                demo_allow demo_deny (FileHandle.new 1) (-6) 1 demo_state 3 5
                eq_refl) as (_ & _ & Hcur & _ & _).
  split.
  - apply (Hend eq_refl 11%N (os demo_state) eq_refl).
  - apply (Hcur eq_refl).
Defined.

Lemma unwatch_idempotent_and_final_witness :
  events_on 1
    (foldl (manager_step demo_os_exec demo_coalesce)
           (final (run demo_core (void (unwatch 1)) demo_state))
           [RawEvent 1 (mkChangeEvent ["/app/logs/a"] Create false); TimerFire 1;
            StopRequest 1])
  = events_on 1 demo_state.
Proof.
  apply (unwatch_idempotent_and_final demo_os_exec demo_base_directory demo_matches
           demo_allow demo_deny demo_coalesce 1 demo_state
           [RawEvent 1 (mkChangeEvent ["/app/logs/a"] Create false); TimerFire 1;
            StopRequest 1]).
Defined.

Lemma lines_iterator_lazy_and_restartable_witness :
  ∃ s2, iterate demo_core (3 + 3) (mkLinesIterator "notes.txt" None None) demo_state
        = ([yielded "one"; yielded "two"; finished; yielded "one"; yielded "two"; finished],
           mkLinesIterator "notes.txt" None None, s2).
Proof.
  apply (lines_iterator_lazy_and_restartable demo_os_exec demo_base_directory demo_matches
           demo_allow demo_deny (PathStr "notes.txt") None demo_state
           "/app/notes.txt" two_lines); reflexivity.
Defined.

(** ** Further properties of the client *)

Lemma new_Date_valid (ms : N) :
  (ms ≤ max_time)%N → getTime (new_Date ms) = Some ms.
Proof. intros H. unfold new_Date. simpl. by destruct (decide (ms ≤ max_time)%N). Qed.

(** The conditional [t !== null ? new Date(t) : null] of [parseFileInfo],
    on a timestamp a [Date] can hold. *)
Lemma parsed_time_inj (t t' : option N) :
  valid_time t → valid_time t' →
  match t with Some ms => Some (new_Date ms) | None => None end
  = match t' with Some ms => Some (new_Date ms) | None => None end →
  t = t'.
Proof.
  destruct t as [ms|], t' as [ms'|]; simpl; intros Hv Hv' H; try done.
  assert (getTime (new_Date ms) = getTime (new_Date ms')) as Heq by congruence.
  rewrite !new_Date_valid in Heq by done. congruence.
Qed.

(** X1. [parseFileInfo] loses nothing of a reply whose timestamps a [Date]
    can hold (at most 8.64e15 ms): two such replies with the same result are
    the same reply, and [getTime] of each date of the result is the
    timestamp of the reply. For every reply, a timestamp is [null] in the
    result exactly when it is [null] in the reply; a timestamp beyond 8.64e15
    ms comes out as an invalid date, so there the milliseconds are lost. *)
Theorem parseFileInfo_loses_nothing (r r' : UnparsedFileInfo) :
  (valid_times r → valid_times r' → parseFileInfo r = parseFileInfo r' → r = r')
  ∧ (valid_times r →
       getTime <$> mtime (parseFileInfo r) = Some <$> u_mtime r
       ∧ getTime <$> atime (parseFileInfo r) = Some <$> u_atime r
       ∧ getTime <$> birthtime (parseFileInfo r) = Some <$> u_birthtime r)
  ∧ ((mtime (parseFileInfo r) = None ↔ u_mtime r = None)
     ∧ (atime (parseFileInfo r) = None ↔ u_atime r = None)
     ∧ (birthtime (parseFileInfo r) = None ↔ u_birthtime r = None))
  ∧ (∀ ms, (max_time < ms)%N →
       (u_mtime r = Some ms → getTime <$> mtime (parseFileInfo r) = Some None)
       ∧ (u_atime r = Some ms → getTime <$> atime (parseFileInfo r) = Some None)
       ∧ (u_birthtime r = Some ms →
            getTime <$> birthtime (parseFileInfo r) = Some None)).
Proof.
  split; [|split; [|split]].
  - destruct r as [? ? ? ? m a b ? ? ? ? ? ? ? ? ? ? ?],
             r' as [? ? ? ? m' a' b' ? ? ? ? ? ? ? ? ? ? ?].
    unfold valid_times, parseFileInfo. simpl. intros (Vm & Va & Vb) (Vm' & Va' & Vb') H.
    injection H as -> -> -> -> Hm Ha Hb -> -> -> -> -> -> -> -> -> -> ->.
    apply parsed_time_inj in Hm as ->; [|done..].
    apply parsed_time_inj in Ha as ->; [|done..].
    apply parsed_time_inj in Hb as ->; [|done..].
    reflexivity.
  - unfold valid_times. destruct r as [? ? ? ? [m|] [a|] [b|] ? ? ? ? ? ? ? ? ? ? ?];
      simpl; intros (Vm & Va & Vb); rewrite ?decide_True by done; done.
  - by destruct r as [? ? ? ? [m|] [a|] [b|] ? ? ? ? ? ? ? ? ? ? ?].
  - intros ms Hbig. destruct r as [? ? ? ? m a b ? ? ? ? ? ? ? ? ? ? ?]. simpl.
    repeat split; intros ->; simpl; rewrite decide_False by lia; done.
Qed.

Lemma parseFileInfo_loses_nothing_witness :
  getTime <$> mtime (parseFileInfo (demo_file_info 1700000000000)) = Some (Some 1700000000000%N).
Proof.
  pose proof (parseFileInfo_loses_nothing (demo_file_info 1700000000000)
                (demo_file_info 1700000000000)) as (_ & H & _).
  apply H. unfold valid_times. simpl. unfold max_time. lia.
Defined.

Lemma check_file_urls_existsb (ps : list PathArg) :
  check_file_urls ps
  = if existsb is_non_file_url ps then Throw must_be_file_url else Ret tt.
Proof.
  induction ps as [|p ps IH]; simpl; [done|]. by destruct (is_non_file_url p).
Qed.

(** X2. Every operation that takes a path, other than [readTextFileLines],
    run against any backend: when the file-scheme check rejects, it fails
    with the [TypeError], the backend state is untouched and no call is
    made; otherwise it makes exactly one call, of its own command, whose
    paths are the stringified path arguments in order. *)
Theorem one_call_with_the_paths {S} (backend : Handler S) (s : S) (op : PathOperation) :
  is_lines_call op = false →
  if guard_rejects op
  then run backend (perform op) s = (Failed (TypeError "Must be a file URL."), s, [])
  else ∃ R (c : Cmd R),
         calls (run backend (perform op) s) = [call c]
         ∧ cmd_name c = command_of op
         ∧ cmd_paths c = path_to_string <$> path_arguments op.
Proof.
  intros Hop. unfold guard_rejects.
  destruct op; try discriminate Hop; cbn [is_stat_call negb andb path_arguments existsb];
    rewrite ?orb_false_r; unfold perform.
  all: unfold create, open, copyFile, mkdir, readDir, readFile, readTextFile,
         remove, rename, stat, lstat, truncate, writeFile,
         writeTextFile, exists_, watch, watchImmediate.
  all: rewrite ?check_file_urls_existsb.
  all: try match goal with
       | |- context [if ?g then Throw _ else _] => destruct g; [reflexivity|]
       end.
  all: rewrite ?bind_Ret.
  all: match goal with
       | |- context [invoke ?c] => exists _, c
       end.
  all: unfold calls; rewrite ?run_bind, run_invoke.
  all: split; [|split; reflexivity].
  all: match goal with
       | |- context [(?b ?R ?c ?st).1] => by destruct (b R c st) as [[v|e] s1]
       end.
Qed.

Lemma one_call_with_the_paths_witness :
  ∃ R (c : Cmd R),
    calls (run demo_core (perform (call_copyFile (PathStr "a") (PathStr "b") None)) demo_state)
    = [call c]
    ∧ cmd_name c = "plugin:fs|copy_file"
    ∧ cmd_paths c = ["a"; "b"].
Proof.
  apply (one_call_with_the_paths demo_core demo_state
           (call_copyFile (PathStr "a") (PathStr "b") None)).
  reflexivity.
Defined.

(** X3. Every operation that takes a path, when the file-scheme check lets
    it through and the backend rejects with [e]: it fails with exactly that
    rejection and has made one call, so nothing is swallowed and nothing is
    retried. ([readTextFileLines] is taken with its first [next()].) *)
Theorem backend_rejection_surfaces {S} (backend : Handler S) (s : S) (op : PathOperation)
    (e : ErrorKind) :
  guard_rejects op = false →
  (∀ R (c : Cmd R) (s0 : S), (backend R c s0).1 = Rejected e) →
  outcome (run backend (perform op) s) = Failed (InvokeError e)
  ∧ length (calls (run backend (perform op) s)) = 1.
Proof.
  unfold guard_rejects. intros Hguard Hrej.
  destruct op; cbn [is_stat_call negb andb path_arguments existsb] in Hguard;
    rewrite ?orb_false_r in Hguard; unfold perform.
  all: unfold create, open, copyFile, mkdir, readDir, readFile, readTextFile,
         readTextFileLines, remove, rename, stat, lstat, truncate, writeFile,
         writeTextFile, exists_, watch, watchImmediate.
  all: rewrite ?check_file_urls_existsb, ?Hguard, ?bind_Ret.
  all: unfold outcome, calls.
  all: try (rewrite ?run_bind, run_invoke, Hrej; split; reflexivity).
  unfold next. cbn [lines_rid]. rewrite run_bind. cbn [run].
  match goal with
  | |- context [backend ?R ?c ?st] =>
      pose proof (Hrej R c st) as H; destruct (backend R c st) as [r s1]
  end.
  simpl in H. subst r. by simpl.
Qed.

Lemma backend_rejection_surfaces_witness :
  outcome (run (λ R (c : Cmd R) (s : unit), (Rejected NotFound : Reply R, s))
               (perform (call_readTextFileLines (PathStr "notes.txt") None)) tt)
  = Failed (InvokeError NotFound)
  ∧ length (calls (run (λ R (c : Cmd R) (s : unit), (Rejected NotFound : Reply R, s))
                       (perform (call_readTextFileLines (PathStr "notes.txt") None)) tt))
    = 1.
Proof.
  apply (backend_rejection_surfaces
           (λ R (c : Cmd R) (s : unit), (Rejected NotFound : Reply R, s)) tt
           (call_readTextFileLines (PathStr "notes.txt") None) NotFound).
  - reflexivity.
  - intros R c s0. reflexivity.
Defined.

(** X4. Whatever the backend does, a [read] that resolves has either been
    given an empty buffer, which it returns untouched with [0] and without a
    call, or has received a reply [(data, nread)] to its one request, with
    [data] no longer than the buffer; the caller's buffer then keeps its
    length, starts with exactly that [data], and is unchanged after it, and
    the result is [null] for [nread] zero and [nread] otherwise. When the
    backend answers a non-empty buffer with more data than it holds, [read]
    has made its call and fails with a [RangeError]. *)
Theorem read_keeps_buffer_shape {S} (backend : Handler S) (s : S) (h : FileHandle.t)
    (buffer : Uint8Array) :
  (∀ result buffer',
     outcome (run backend (FileHandle.read h buffer) s) = Fulfilled (result, buffer') →
     (byteLength buffer = 0%N ∧ result = Some 0%N ∧ buffer' = buffer
      ∧ run backend (FileHandle.read h buffer) s = (Fulfilled (result, buffer'), s, []))
     ∨ (byteLength buffer ≠ 0%N
        ∧ ∃ data nread s',
            backend _ (fs_read (FileHandle.rid h) (byteLength buffer)) s
              = (Resolved (data, nread), s')
            ∧ run backend (FileHandle.read h buffer) s
              = (Fulfilled (result, buffer'), s',
                 [call (fs_read (FileHandle.rid h) (byteLength buffer))])
            ∧ length data ≤ length buffer
            ∧ length buffer' = length buffer
            ∧ take (length data) buffer' = data
            ∧ drop (length data) buffer' = drop (length data) buffer
            ∧ result = (if decide (nread = 0%N) then None else Some nread)))
  ∧ (∀ data nread s',
       byteLength buffer ≠ 0%N →
       backend _ (fs_read (FileHandle.rid h) (byteLength buffer)) s
         = (Resolved (data, nread), s') →
       length buffer < length data →
       ∃ msg, run backend (FileHandle.read h buffer) s
              = (Failed (RangeError msg), s',
                 [call (fs_read (FileHandle.rid h) (byteLength buffer))])).
Proof.
  unfold FileHandle.read, outcome. split.
  - intros result buffer'.
    destruct (decide (byteLength buffer = 0%N)) as [Hz|Hnz].
    + simpl. intros [= <- <-]. by left.
    + rewrite run_bind, run_invoke.
      destruct (backend _ _ s) as [[[data nread]|e] s'] eqn:Hreply; simpl; [|done].
      unfold Uint8Array_set.
      destruct (decide (length data ≤ length buffer)) as [Hfit|Hbig]; simpl; [|done].
      intros [= <- <-]. right. split; [done|].
      exists data, nread, s'. split; [done|]. split; [done|]. split; [done|].
      split; [|split; [|split]].
      * rewrite length_app, length_drop. lia.
      * by rewrite take_app_length.
      * by rewrite drop_app_length.
      * done.
  - intros data nread s' Hne Hreply Hbig.
    destruct (decide (byteLength buffer = 0%N)) as [Hz|Hnz].
    + done.
    + rewrite run_bind, run_invoke, Hreply. simpl. unfold Uint8Array_set.
      destruct (decide (length data ≤ length buffer)) as [Hfit|_]; [lia|].
      simpl. eauto.
Qed.

Lemma read_keeps_buffer_shape_witness :
  ∃ msg, run (λ R (c : Cmd R) (s : unit),
                (match c in Cmd R return Reply R with
                 | fs_read _ _ => Resolved (["a"%byte; "b"%byte], 2%N)
                 | _ => Rejected NotFound
                 end, s))
             (FileHandle.read (FileHandle.new 1) ["x"%byte]) tt
         = (Failed (RangeError msg), tt, [call (fs_read 1 1)]).
Proof.
  pose proof (read_keeps_buffer_shape
                (λ R (c : Cmd R) (s : unit),
                   (match c in Cmd R return Reply R with
                    | fs_read _ _ => Resolved (["a"%byte; "b"%byte], 2%N)
                    | _ => Rejected NotFound
                    end, s))
                tt (FileHandle.new 1) ["x"%byte]) as [_ H].
  apply (H ["a"%byte; "b"%byte] 2%N tt).
  - discriminate.
  - reflexivity.
  - simpl. lia.
Defined.

(** X5. The options [watch] and [watchImmediate] send hold every property
    the caller gave, at the caller's value ([delayMs] excepted in
    [watchImmediate]), and apart from the caller's properties only
    [recursive] and [delayMs]. *)
Theorem watch_options_keep_caller_properties (options : Options) :
  (∀ o key v, options = Some o → o !! key = Some v →
     watch_opts options !! key = Some v
     ∧ (key ≠ "delayMs" → watchImmediate_opts options !! key = Some v))
  ∧ dom (watch_opts options)
    = dom (default ∅ options) ∪ {["recursive"; "delayMs"]}
  ∧ dom (watchImmediate_opts options)
    = dom (default ∅ options) ∪ {["recursive"; "delayMs"]}.
Proof.
  split; [|split].
  - intros o key v -> Hv. split.
    + unfold watch_opts. by rewrite lookup_spread, Hv.
    + intros Hne. unfold watchImmediate_opts.
      rewrite lookup_insert_ne by done. by rewrite lookup_spread, Hv.
  - unfold watch_opts, spread. destruct options as [o|]; simpl.
    + rewrite dom_union_L, !dom_insert_L, dom_empty_L. set_solver.
    + rewrite !dom_insert_L, !dom_empty_L. set_solver.
  - unfold watchImmediate_opts, spread. destruct options as [o|]; simpl.
    + rewrite dom_insert_L, dom_union_L, !dom_insert_L, dom_empty_L. set_solver.
    + rewrite !dom_insert_L, !dom_empty_L. set_solver.
Qed.

(** X6. [watchImmediate(paths, cb, options)] is the same program as [watch]
    called with the caller's options and [delayMs] set to [null]. *)
Theorem watchImmediate_is_watch_with_null_delay
    (paths : WatchPaths) (cb : Callback) (options : Options) :
  watchImmediate paths cb options
  = watch paths cb (Some (<["delayMs" := VNull]> (default ∅ options))).
Proof.
  unfold watchImmediate, watch.
  assert (watchImmediate_opts options
          = watch_opts (Some (<["delayMs" := VNull]> (default ∅ options)))) as ->;
    [|reflexivity].
  apply map_eq. intros key. unfold watchImmediate_opts, watch_opts.
  destruct (decide ("delayMs" = key)) as [<-|Hk].
  - by rewrite lookup_insert_eq, lookup_spread, lookup_insert_eq.
  - rewrite lookup_insert_ne by done. rewrite !lookup_spread.
    rewrite !(lookup_insert_ne _ "delayMs") by done.
    destruct options as [o|]; simpl; [done|]. by rewrite lookup_empty.
Qed.

(** X7. When no path is a URL of another scheme and the backend answers
    the [plugin:fs|watch] call with [rid], the function [watch] (and
    likewise [watchImmediate]) resolves to, called at any later moment,
    makes one [plugin:fs|unwatch] call for that same [rid] and returns
    normally. *)
Theorem stop_function_targets_returned_rid {S} (backend : Handler S) (s s' : S)
    (paths : WatchPaths) (cb : Callback) (options : Options) (rid : N) :
  existsb is_non_file_url (to_watchPaths paths) = false →
  (backend _ (fs_watch (path_to_string <$> to_watchPaths paths)
                       (watch_opts options) (mkChannel cb)) s = (Resolved rid, s') →
   ∃ stop, outcome (run backend (watch paths cb options) s) = Fulfilled stop
           ∧ ∀ b, run backend stop b
                  = (Fulfilled tt, (backend _ (fs_unwatch rid) b).2, [call (fs_unwatch rid)]))
  ∧ (backend _ (fs_watch (path_to_string <$> to_watchPaths paths)
                         (watchImmediate_opts options) (mkChannel cb)) s = (Resolved rid, s') →
     ∃ stop, outcome (run backend (watchImmediate paths cb options) s) = Fulfilled stop
             ∧ ∀ b, run backend stop b
                    = (Fulfilled tt, (backend _ (fs_unwatch rid) b).2,
                       [call (fs_unwatch rid)])).
Proof.
  intros Hok. unfold watch, watchImmediate, outcome.
  rewrite check_file_urls_existsb, Hok, !bind_Ret.
  split; intros Hreply; exists (void (unwatch rid));
    (split; [by rewrite run_bind, run_invoke, Hreply|]);
    intros b; apply run_void_unwatch.
Qed.

Lemma stop_function_targets_returned_rid_witness :
  ∃ stop, outcome (run demo_core (watch (OnePath (PathStr "logs")) (CallbackRef 2) None)
                       demo_state) = Fulfilled stop
          ∧ ∀ b, run demo_core stop b
                 = (Fulfilled tt, (demo_core _ (fs_unwatch 2) b).2, [call (fs_unwatch 2)]).
Proof.
  pose proof (stop_function_targets_returned_rid demo_core demo_state
                (demo_core _ (fs_watch ["logs"] (watch_opts None) (mkChannel (CallbackRef 2)))
                           demo_state).2
                (OnePath (PathStr "logs")) (CallbackRef 2) None 2 eq_refl) as [H _].
  apply H. reflexivity.
Defined.

Lemma method_calls_made {S} (backend : Handler S) (s : S) (h : FileHandle.t)
    (m : HandleMethod) :
  calls (run backend (call_method h m) s) = method_calls (FileHandle.rid h) m.
Proof.
  unfold calls. destruct m; unfold call_method, method_calls.
  - unfold FileHandle.read.
    destruct (decide (byteLength buffer = 0%N)); [done|].
    rewrite !run_bind, run_invoke.
    destruct (backend _ _ s) as [[[data nread]|e] s1]; simpl; [|done].
    by destruct (Uint8Array_set buffer data).
  - unfold FileHandle.seek. rewrite run_bind, run_invoke.
    by destruct (backend _ _ s) as [[v|e] s1].
  - unfold FileHandle.stat. rewrite !run_bind, run_invoke.
    by destruct (backend _ _ s) as [[v|e] s1].
  - unfold FileHandle.truncate. by rewrite run_invoke.
  - unfold FileHandle.write. rewrite run_bind, run_invoke.
    by destruct (backend _ _ s) as [[v|e] s1].
Qed.

(** X8. When the backend answers [open] (or [create]) with [rid], any
    method then called on the handle the function resolved to addresses
    that [rid]: after the opening call comes the one call of the method,
    with [rid] and the method's arguments, and for [read] on an empty
    buffer no call at all. *)
Theorem handle_methods_address_opened_rid {S} (backend : Handler S) (s s' : S)
    (path : PathArg) (options : Options) (rid : N) (m : HandleMethod) :
  is_non_file_url path = false →
  (backend _ (fs_open (path_to_string path) options) s = (Resolved rid, s') →
   calls (run backend (h ← open path options; call_method h m) s)
   = call (fs_open (path_to_string path) options) :: method_calls rid m)
  ∧ (backend _ (fs_create (path_to_string path) options) s = (Resolved rid, s') →
     calls (run backend (h ← create path options; call_method h m) s)
     = call (fs_create (path_to_string path) options) :: method_calls rid m).
Proof.
  intros Hok. unfold open, create. rewrite Hok.
  split; intros Hreply; unfold calls; rewrite !run_bind, run_invoke, Hreply; simpl.
  all: pose proof (method_calls_made backend s' (FileHandle.new rid) m) as Hm.
  all: unfold calls in Hm; simpl in Hm.
  all: destruct (run backend (call_method (FileHandle.new rid) m) s') as [[o s2] log].
  all: simpl in *; by rewrite Hm.
Qed.

Lemma handle_methods_address_opened_rid_witness :
  calls (run demo_core (h ← open (PathStr "notes.txt") None;
                        call_method h (method_seek 0 0)) demo_state)
  = [call (fs_open "notes.txt" None); call (fs_seek 2 0 0)].
Proof.
  pose proof (handle_methods_address_opened_rid demo_core demo_state
                (demo_core _ (fs_open "notes.txt" None) demo_state).2
                (PathStr "notes.txt") None 2 (method_seek 0 0) eq_refl) as [H _].
  apply H. reflexivity.
Defined.

(** X9. The failure and continuation cases of [next()], against any
    backend. On an iterator without [rid]: if opening is rejected, [next()]
    fails after that one call and the iterator still has no [rid]; if opening
    resolves to [rid] and the request for a line is rejected, [next()]
    fails after the two calls and the iterator keeps [rid]. On an iterator
    that holds [rid], [next()] makes the one request for a line: a line
    that is not the last is yielded as it is and [rid] is kept, and a
    rejection fails the call and keeps [rid], so that the file is not opened
    again. *)
Theorem next_failure_keeps_the_reader {S} (backend : Handler S) (s : S)
    (p : string) (options : Options) (e : ErrorKind) :
  let fresh := mkLinesIterator p options None in
  (∀ s', backend _ (fs_read_text_file_lines p options) s = (Rejected e, s') →
         run backend (next fresh) s
         = (Fulfilled (Failed (InvokeError e), fresh), s',
            [call (fs_read_text_file_lines p options)]))
  ∧ (∀ rid s1 s2,
       backend _ (fs_read_text_file_lines p options) s = (Resolved rid, s1) →
       backend _ (fs_read_text_file_lines_next rid) s1 = (Rejected e, s2) →
       run backend (next fresh) s
       = (Fulfilled (Failed (InvokeError e), set_rid (Some rid) fresh), s2,
          [call (fs_read_text_file_lines p options);
           call (fs_read_text_file_lines_next rid)]))
  ∧ (∀ rid line s1,
       backend _ (fs_read_text_file_lines_next rid) s = (Resolved (line, false), s1) →
       run backend (next (set_rid (Some rid) fresh)) s
       = (Fulfilled (yielded line, set_rid (Some rid) fresh), s1,
          [call (fs_read_text_file_lines_next rid)]))
  ∧ (∀ rid s1,
       backend _ (fs_read_text_file_lines_next rid) s = (Rejected e, s1) →
       run backend (next (set_rid (Some rid) fresh)) s
       = (Fulfilled (Failed (InvokeError e), set_rid (Some rid) fresh), s1,
          [call (fs_read_text_file_lines_next rid)])).
Proof.
  cbv zeta. unfold next, next_line. cbn [lines_rid set_rid lines_path lines_options run].
  split; [|split; [|split]].
  - intros s' ->. reflexivity.
  - intros rid s1 s2 H1 H2. rewrite H1. cbn. by rewrite H2.
  - intros rid line s1 ->. reflexivity.
  - intros rid s1 ->. reflexivity.
Qed.

(** ** Enumerations *)

Lemma make_enum_snoc (members : list (string * Z)) (m : string * Z) :
  make_enum (members ++ [m]) = enum_member (make_enum members) m.
Proof. unfold make_enum. by rewrite foldl_app. Qed.

Lemma enum_ok_names_codes (members : list (string * Z)) (name : string) (code : Z) :
  enum_ok members → name ∈ members.*1 → code ∈ members.*2 → name ≠ pretty code.
Proof.
  intros (_ & _ & Hf) Hn Hc. rewrite Forall_forall in Hf. specialize (Hf name Hn).
  rewrite Forall_forall in Hf. by apply Hf.
Qed.

Lemma enum_ok_snoc (members : list (string * Z)) (n : string) (c : Z) :
  enum_ok (members ++ [(n, c)]) →
  enum_ok members ∧ (n ∉ members.*1) ∧ (c ∉ members.*2) ∧ n ≠ pretty c
  ∧ (∀ name, name ∈ members.*1 → name ≠ pretty c)
  ∧ (∀ code, code ∈ members.*2 → n ≠ pretty code).
Proof.
  intros Hok. pose proof (λ name code, enum_ok_names_codes _ name code Hok) as Hmix.
  destruct Hok as (Hn & Hc & _). rewrite fmap_app in Hn. rewrite fmap_app in Hc.
  rewrite !fmap_app in Hmix. simpl in *.
  apply NoDup_app in Hn as (Hn & Hn' & _). apply NoDup_app in Hc as (Hc & Hc' & _).
  split; [|split; [|split; [|split; [|split]]]].
  - split; [done|]. split; [done|].
    apply Forall_forall. intros name Hname. apply Forall_forall. intros code Hcode.
    apply Hmix; apply elem_of_app; by left.
  - intros H. apply (Hn' n H). by apply list_elem_of_singleton.
  - intros H. apply (Hc' c H). by apply list_elem_of_singleton.
  - apply Hmix; apply elem_of_app; right; by apply list_elem_of_singleton.
  - intros name Hin. apply Hmix; apply elem_of_app;
      [by left|right; by apply list_elem_of_singleton].
  - intros code Hin. apply Hmix; apply elem_of_app;
      [right; by apply list_elem_of_singleton|by left].
Qed.

Lemma make_enum_lookup (members : list (string * Z)) (key : string) (v : JsValue) :
  enum_ok members →
  make_enum members !! key = Some v ↔
  ∃ name code, (name, code) ∈ members
               ∧ ((key = name ∧ v = VNum code) ∨ (key = pretty code ∧ v = VStr name)).
Proof.
  revert key v. induction members as [|[n c] members IH] using rev_ind; intros key v Hok.
  - unfold make_enum. simpl. rewrite lookup_empty. split; [done|].
    intros (name & code & Hin & _). by apply elem_of_nil in Hin.
  - apply enum_ok_snoc in Hok as (Hok & Hn & Hc & Hnc & Hnames & Hcodes).
    rewrite make_enum_snoc. unfold enum_member. simpl.
    rewrite lookup_insert. case_decide as Hk1.
    { subst key. split.
      - intros [= <-]. exists n, c.
        split; [apply elem_of_app; right; by apply list_elem_of_singleton|]. by right.
      - intros (name & code & Hin & [[Hkey ->]|[Hkey ->]]).
        + exfalso. apply elem_of_app in Hin as [Hin|Hin].
          * apply (Hnames name); [|done]. apply list_elem_of_fmap. by exists (name, code).
          * apply list_elem_of_singleton in Hin. congruence.
        + apply (inj pretty) in Hkey. subst code.
          apply elem_of_app in Hin as [Hin|Hin].
          * exfalso. apply Hc. apply list_elem_of_fmap. by exists (name, c).
          * apply list_elem_of_singleton in Hin. congruence. }
    rewrite lookup_insert. case_decide as Hk2.
    { subst key. split.
      - intros [= <-]. exists n, c.
        split; [apply elem_of_app; right; by apply list_elem_of_singleton|]. by left.
      - intros (name & code & Hin & [[Hkey ->]|[Hkey ->]]).
        + subst name. apply elem_of_app in Hin as [Hin|Hin].
          * exfalso. apply Hn. apply list_elem_of_fmap. by exists (n, code).
          * apply list_elem_of_singleton in Hin. congruence.
        + exfalso. apply elem_of_app in Hin as [Hin|Hin].
          * apply (Hcodes code); [|done]. apply list_elem_of_fmap. by exists (name, code).
          * apply list_elem_of_singleton in Hin. congruence. }
    rewrite (IH key v Hok). split.
    + intros (name & code & Hin & H). exists name, code.
      split; [apply elem_of_app; by left|done].
    + intros (name & code & Hin & H). exists name, code. split; [|done].
      apply elem_of_app in Hin as [Hin|Hin]; [done|].
      apply list_elem_of_singleton in Hin. injection Hin as -> ->.
      destruct H as [[-> _]|[-> _]]; done.
Qed.

Lemma make_enum_round_trip (members : list (string * Z)) (name : string) (code : Z) :
  enum_ok members →
  (make_enum members !! name = Some (VNum code) ↔ (name, code) ∈ members)
  ∧ (make_enum members !! pretty code = Some (VStr name) ↔ (name, code) ∈ members).
Proof.
  intros Hok. split; rewrite make_enum_lookup by done; split.
  - intros (n & c & Hin & [[-> [= ->]]|[_ [=]]]). done.
  - intros Hin. exists name, code. split; [done|]. by left.
  - intros (n & c & Hin & [[_ [=]]|[Hp [= ->]]]). apply (inj pretty) in Hp. by subst.
  - intros Hin. exists name, code. split; [done|]. by right.
Qed.

(** X10. In [SeekMode] and in [BaseDirectory] the two directions of the
    enumeration object agree: a name is mapped to a code exactly when the
    property named by the numeral of that code is that name; the codes of
    [BaseDirectory] lie between 1 and 23. *)
Theorem enums_round_trip (name : string) (code : Z) :
  (SeekMode !! name = Some (VNum code) ↔ SeekMode !! pretty code = Some (VStr name))
  ∧ (Legacy.BaseDirectory !! name = Some (VNum code)
     ↔ Legacy.BaseDirectory !! pretty code = Some (VStr name))
  ∧ (Legacy.BaseDirectory !! name = Some (VNum code) → (1 ≤ code ≤ 23)%Z).
Proof.
  assert (Hseek : enum_ok SeekMode_members)
    by (apply (bool_decide_unpack _); vm_compute; exact I).
  assert (Hbase : enum_ok Legacy.BaseDirectory_members)
    by (apply (bool_decide_unpack _); vm_compute; exact I).
  change SeekMode with (make_enum SeekMode_members). unfold Legacy.BaseDirectory.
  destruct (make_enum_round_trip SeekMode_members name code Hseek) as [-> ->].
  destruct (make_enum_round_trip Legacy.BaseDirectory_members name code Hbase) as [-> ->].
  split; [done|]. split; [done|].
  intros Hin.
  assert (Hrange : Forall (λ m, (1 ≤ m.2 ≤ 23)%Z) Legacy.BaseDirectory_members)
    by (apply (bool_decide_unpack _); vm_compute; exact I).
  rewrite Forall_forall in Hrange. apply (Hrange _ Hin).
Qed.

(** ** The earlier API *)





